(** * tinynn: the scalar reverse-mode autodiff engine of [engine.py]

    A shallow embedding of the [Variable] class.  Python objects have
    identity and mutable attributes, so the objects live in a store
    ([heap]) and a reference is the allocation index of the object.
    The [_backward] closures of the source capture the references
    [self], [other], [out] (and the number [exponent]); they are kept
    as data ([closure]) and run against the store that is current when
    they are called.

    A function returns [None] when it meets a reference to no object,
    which Python cannot produce, or when [build_topo] runs out of
    [fuel]; the theorems show that neither happens on a well-formed
    store ([wf_heap]), the shape of store that the constructor and the
    operators build ([operators_wf]). *)

From stdpp Require Import base option list gmap strings pretty.
From Stdlib Require Import ZArith Lia.

(** ** Numbers

    The engine is duck typed: [data] and [grad] are whatever the caller
    passes in, used only through [+], [-], [*], [**], [<=], [max] and
    string formatting.  [PyNum] lists those operators; they are taken
    as total on the number domain (an operator that raises is outside
    the model). *)

Class PyNum (num : Type) := {
  py_0 : num;                       (* the literal 0 *)
  py_1 : num;                       (* the literal 1 *)
  py_neg : num → num;               (* unary minus, as in -1 *)
  py_add : num → num → num;         (* x + y *)
  py_sub : num → num → num;         (* x - y *)
  py_mul : num → num → num;         (* x * y *)
  py_pow : num → num → num;         (* x ** y *)
  py_le : num → num → bool;         (* x <= y *)
  py_gt : num → num → bool;         (* x > y *)
  py_str : num → string;            (* f'{x}' *)
}.

(** The builtin [max(x, y)] keeps its first argument unless the second
    one compares greater. *)
Definition py_max `{PyNum num} (x y : num) : num :=
  if py_gt y x then y else x.

(** Python's [int], for non-negative exponents of [**]. *)
#[export] Instance Z_PyNum : PyNum Z := {|
  py_0 := 0%Z;
  py_1 := 1%Z;
  py_neg := Z.opp;
  py_add := Z.add;
  py_sub := Z.sub;
  py_mul := Z.mul;
  py_pow := Z.pow;
  py_le := Z.leb;
  py_gt := Z.gtb;
  py_str := pretty;
|}.

(** ** Objects and the store *)

(** A reference to an object: its index in the store. *)
Abbreviation ref := nat.

Section Engine.
Context {num : Type} `{PyNum num}.

(** The body of a [_backward] closure together with the variables it
    captured. *)
Inductive closure :=
  | lambda_None                                   (* lambda: None *)
  | add_backward (self other out : ref)
  | sub_backward (self other out : ref)
  | mul_backward (self other out : ref)
  | pow_backward (self : ref) (exponent : num) (out : ref)
  | relu_backward (self out : ref).

Record variable := mk_variable {
  data : num;
  label : string;
  grad : num;
  _prev : list ref;
  _op : string;
  _backward : closure;
}.

(** The store: the objects allocated so far, in allocation order. *)
#[local] Abbreviation heap := (list variable).

Definition with_grad (g : num) (n : variable) : variable :=
  mk_variable (data n) (label n) g (_prev n) (_op n) (_backward n).

Definition with_backward (c : closure) (n : variable) : variable :=
  mk_variable (data n) (label n) (grad n) (_prev n) (_op n) c.

(** [Variable(data, label, grad, _op, _prev)]: a new object, whose
    [_backward] is [lambda: None]. *)
Definition Variable_init (d : num) (lbl : string) (g : num) (op : string)
    (prev : list ref) (h : heap) : heap * ref :=
  (h ++ [mk_variable d lbl g prev op lambda_None], length h).

(** The second operand of a binary operator: a [Variable] or anything
    else. *)
Inductive operand :=
  | Obj (r : ref)
  | Raw (x : num).

(** [other if isinstance(other, Variable) else Variable(other, f'{other}')] *)
Definition lift (other : operand) (h : heap) : heap * ref :=
  match other with
  | Obj r => (h, r)
  | Raw x => Variable_init x (py_str x) py_0 "" [] h
  end.

(** [r.grad = g] *)
Definition set_grad (r : ref) (g : num) (h : heap) : option heap :=
  n ← h !! r; Some (<[r := with_grad g n]> h).

(** [r.grad += x] *)
Definition iadd_grad (r : ref) (x : num) (h : heap) : option heap :=
  n ← h !! r; set_grad r (py_add (grad n) x) h.

(** [r.grad], [r.data] *)
Definition get_grad (h : heap) (r : ref) : option num := grad <$> h !! r.
Definition get_data (h : heap) (r : ref) : option num := data <$> h !! r.

(** [out._backward = _backward] *)
Definition set_backward (r : ref) (c : closure) (h : heap) : option heap :=
  n ← h !! r; Some (<[r := with_backward c n]> h).

(** ** The operators *)

Definition __add__ (self : ref) (other : operand) (h : heap)
    : option (heap * ref) :=
  let '(h1, other) := lift other h in
  x ← get_data h1 self;
  y ← get_data h1 other;
  let '(h2, out) := Variable_init (py_add x y) "" py_0 "+" [self; other] h1 in
  h3 ← set_backward out (add_backward self other out) h2;
  Some (h3, out).

Definition __sub__ (self : ref) (other : operand) (h : heap)
    : option (heap * ref) :=
  let '(h1, other) := lift other h in
  s ← h1 !! self;
  y ← get_data h1 other;
  let '(h2, out) :=
    Variable_init (py_sub (data s) y) (label s) py_0 "-" [self; other] h1 in
  h3 ← set_backward out (sub_backward self other out) h2;
  Some (h3, out).

Definition __mul__ (self : ref) (other : operand) (h : heap)
    : option (heap * ref) :=
  let '(h1, other) := lift other h in
  s ← h1 !! self;
  y ← get_data h1 other;
  let '(h2, out) :=
    Variable_init (py_mul (data s) y) (label s) py_0 "*" [self; other] h1 in
  h3 ← set_backward out (mul_backward self other out) h2;
  Some (h3, out).

Definition __pow__ (self : ref) (exponent : num) (h : heap)
    : option (heap * ref) :=
  s ← h !! self;
  let '(h2, out) :=
    Variable_init (py_pow (data s) exponent) (label s) py_0 "pow" [self] h in
  h3 ← set_backward out (pow_backward self exponent out) h2;
  Some (h3, out).

Definition relu (self : ref) (h : heap) : option (heap * ref) :=
  s ← h !! self;
  let '(h2, out) :=
    Variable_init (py_max py_0 (data s)) (label s) py_0 "relu" [self] h in
  h3 ← set_backward out (relu_backward self out) h2;
  Some (h3, out).

(** [np.tanh] is numpy's; the engine only stores what it returns. *)
Definition tanh (np_tanh : num → num) (self : ref) (h : heap)
    : option (heap * ref) :=
  s ← h !! self;
  Some (Variable_init (np_tanh (data s)) (label s) py_0 "tanh" [self] h).

Definition zero_grad (self : ref) (h : heap) : option heap :=
  set_grad self py_0 h.

(** ** Running a closure *)

Definition run_closure (c : closure) (h : heap) : option heap :=
  match c with
  | lambda_None => Some h
  | add_backward self other out =>
      g ← get_grad h out;
      h1 ← iadd_grad self g h;
      g1 ← get_grad h1 out;
      iadd_grad other g1 h1
  | sub_backward self other out =>
      g ← get_grad h out;
      h1 ← iadd_grad self g h;
      g1 ← get_grad h1 out;
      iadd_grad other (py_mul (py_neg py_1) g1) h1
  | mul_backward self other out =>
      g ← get_grad h out;
      y ← get_data h other;
      h1 ← iadd_grad self (py_mul g y) h;
      g1 ← get_grad h1 out;
      x ← get_data h1 self;
      iadd_grad other (py_mul g1 x) h1
  | pow_backward self exponent out =>
      g ← get_grad h out;
      x ← get_data h self;
      iadd_grad self
        (py_mul (py_mul g exponent) (py_pow x (py_sub exponent py_1))) h
  | relu_backward self out =>
      x ← get_data h self;
      if py_le x py_0 then iadd_grad self py_0 h
      else g ← get_grad h out; iadd_grad self g h
  end.

(** [v._backward()] *)
Definition call_backward (v : ref) (h : heap) : option heap :=
  n ← h !! v; run_closure (_backward n) h.

(** ** The backward pass *)

(** [for x in xs: body(x)], threading the state the body mutates. *)
Fixpoint for_each {S A : Type} (body : A → S → option S) (xs : list A)
    (s : S) : option S :=
  match xs with
  | [] => Some s
  | x :: rest => s1 ← body x s; for_each body rest s1
  end.

(** The two local variables [visited] and [topo] that [build_topo]
    mutates.  [visited] is a set of objects, hashed by identity since
    [Variable] defines neither [__eq__] nor [__hash__]. *)
Definition topo_state : Type := gset ref * list ref.

(** [build_topo(v)]; [fuel] bounds the depth of the Python call stack. *)
Fixpoint build_topo (fuel : nat) (h : heap) (v : ref) (st : topo_state)
    : option topo_state :=
  match fuel with
  | 0 => None
  | S fuel =>
      if decide (v ∈ st.1) then Some st
      else
        n ← h !! v;
        st1 ← for_each (build_topo fuel h) (_prev n) ({[v]} ∪ st.1, st.2);
        Some (st1.1, st1.2 ++ [v])
  end.

(** The body of a loop, with a log of the elements it was run on. *)
Definition logged {S A : Type} (body : A → S → option S) (x : A)
    (s : S * list A) : option (S * list A) :=
  s1 ← body x s.1; Some (s1, s.2 ++ [x]).

(** [self.backward()], instrumented: next to the store it returns the
    objects whose [_backward] the final loop called, in call order. *)
Definition backward_logged (self : ref) (h : heap)
    : option (heap * list ref) :=
  st ← build_topo (S (length h)) h self (∅, []);
  h1 ← set_grad self py_1 h;
  for_each (logged call_backward) (reverse st.2) (h1, []).

(** [self.backward()] *)
Definition backward (self : ref) (h : heap) : option heap :=
  st ← build_topo (S (length h)) h self (∅, []);
  h1 ← set_grad self py_1 h;
  for_each call_backward (reverse st.2) h1.

End Engine.

Arguments closure : clear implicits.
Arguments variable : clear implicits.
Arguments operand : clear implicits.

Abbreviation heap num := (list (variable num)).

(** ** Well-formed stores

    Objects are only made by [Variable_init], which appends to the
    store, so every parent of an object was allocated before it; and a
    closure other than [lambda: None] sits on the object [out] whose
    operator made it, with the operands it captured as [_prev]. *)

Section Wf.
Context {num : Type} `{PyNum num}.
Implicit Types (h : heap num) (n : variable num) (c : closure num).

Definition closure_ok (i : ref) (prev : list ref) c : Prop :=
  match c with
  | lambda_None => True
  | add_backward s o out | sub_backward s o out | mul_backward s o out =>
      out = i ∧ prev = [s; o]
  | pow_backward s _ out | relu_backward s out =>
      out = i ∧ prev = [s]
  end.

Definition node_ok (i : ref) n : Prop :=
  Forall (λ p, p < i) (_prev n) ∧ closure_ok i (_prev n) (_backward n).

Definition wf_heap h : Prop :=
  ∀ i n, h !! i = Some n → node_ok i n.

#[global] Instance closure_ok_dec i prev c : Decision (closure_ok i prev c).
Proof. destruct c; simpl; apply _. Defined.

#[global] Instance node_ok_dec i n : Decision (node_ok i n).
Proof. unfold node_ok; apply _. Defined.

(** The executable check of [wf_heap]. *)
Definition wf_heapb h : bool :=
  forallb (λ b : bool, b) (imap (λ i n, bool_decide (node_ok i n)) h).

Lemma wf_heapb_correct h : wf_heapb h = true → wf_heap h.
Proof.
  unfold wf_heapb. intros Hb i n Hi.
  apply Is_true_true_2, forallb_True in Hb.
  rewrite Forall_lookup in Hb.
  specialize (Hb i (bool_decide (node_ok i n))).
  eapply bool_decide_unpack, Hb.
  by rewrite list_lookup_imap, Hi.
Qed.

(** The parents of an object. *)
Definition parents h (v : ref) : list ref :=
  from_option _prev [] (h !! v).

Inductive reachable h (root : ref) : ref → Prop :=
  | reach_root : reachable h root root
  | reach_parent v p :
      reachable h root v → p ∈ parents h v → reachable h root p.

Lemma wf_parent_lt h v p : wf_heap h → p ∈ parents h v → p < v.
Proof.
  unfold parents. intros Hwf Hp.
  destruct (h !! v) as [n|] eqn:Hv; simpl in Hp; [|by apply elem_of_nil in Hp].
  destruct (Hwf v n Hv) as [Hlt _].
  rewrite Forall_forall in Hlt. by apply Hlt.
Qed.

Lemma parent_is_Some h v p : p ∈ parents h v → is_Some (h !! v).
Proof.
  unfold parents. destruct (h !! v); simpl; [eauto|].
  intros Hp. by apply elem_of_nil in Hp.
Qed.

Lemma wf_parent_valid h v p : wf_heap h → p ∈ parents h v → p < length h.
Proof.
  intros Hwf Hp. pose proof (wf_parent_lt _ _ _ Hwf Hp).
  apply parent_is_Some, lookup_lt_is_Some in Hp. lia.
Qed.

Lemma reachable_le h root v : wf_heap h → reachable h root v → v ≤ root.
Proof.
  intros Hwf. induction 1 as [|v p _ IH Hp]; [lia|].
  pose proof (wf_parent_lt _ _ _ Hwf Hp). lia.
Qed.

Lemma reachable_valid h root v :
  wf_heap h → root < length h → reachable h root v → v < length h.
Proof. intros Hwf Hr Hv. pose proof (reachable_le _ _ _ Hwf Hv). lia. Qed.

Lemma reachable_trans h x y z :
  reachable h x y → reachable h y z → reachable h x z.
Proof. intros Hxy. induction 1; [done|]. by eapply reach_parent. Qed.

(** *** Stores that differ in gradients only *)

Definition grad_only h h' : Prop :=
  Forall2 (λ n n', n' = with_grad (grad n') n) h h'.

Lemma grad_only_refl h : grad_only h h.
Proof. apply Forall_Forall2_diag, Forall_forall. by intros []. Qed.

Lemma grad_only_trans h1 h2 h3 :
  grad_only h1 h2 → grad_only h2 h3 → grad_only h1 h3.
Proof.
  unfold grad_only. intros H12 H23. revert h3 H23.
  induction H12 as [|n1 n2 ? ? Hn]; intros h3 H23;
    inversion H23 as [|? n3 ? ? Hn']; subst; constructor; [|by auto].
  rewrite Hn', Hn. done.
Qed.

Lemma grad_only_length h h' : grad_only h h' → length h = length h'.
Proof. apply Forall2_length. Qed.

Lemma grad_only_lookup h h' i n :
  grad_only h h' → h !! i = Some n →
  ∃ g, h' !! i = Some (with_grad g n).
Proof.
  intros Hg Hi. destruct (Forall2_lookup_l _ _ _ _ _ Hg Hi) as (n' & Hi' & Hn).
  exists (grad n'). by rewrite Hi', Hn at 1.
Qed.

Lemma grad_only_lookup_r h h' i n' :
  grad_only h h' → h' !! i = Some n' →
  ∃ n, h !! i = Some n ∧ n' = with_grad (grad n') n.
Proof.
  intros Hg Hi. destruct (Forall2_lookup_r _ _ _ _ _ Hg Hi) as (n & Hn & Heq).
  eauto.
Qed.

Lemma grad_only_sym h h' : grad_only h h' → grad_only h' h.
Proof.
  unfold grad_only. induction 1 as [|n n' ? ? Hn]; constructor; [|done].
  rewrite Hn. by destruct n.
Qed.

Lemma grad_only_parents h h' v : grad_only h h' → parents h' v = parents h v.
Proof.
  intros Hg. unfold parents. destruct (h !! v) as [n|] eqn:Hv.
  - destruct (grad_only_lookup _ _ _ _ Hg Hv) as [g ->]. done.
  - apply lookup_ge_None in Hv. rewrite (grad_only_length _ _ Hg) in Hv.
    apply lookup_ge_None in Hv. by rewrite Hv.
Qed.

Lemma grad_only_wf h h' : grad_only h h' → wf_heap h → wf_heap h'.
Proof.
  intros Hg Hwf i n' Hi.
  destruct (grad_only_lookup_r _ _ _ _ Hg Hi) as (n & Hn & Heq).
  rewrite Heq. apply (Hwf i n Hn).
Qed.

Lemma grad_only_reachable h h' root v :
  grad_only h h' → reachable h root v → reachable h' root v.
Proof.
  intros Hg. induction 1; [constructor|].
  eapply reach_parent; [done|]. by rewrite (grad_only_parents _ _ _ Hg).
Qed.

Lemma grad_only_insert h i n g :
  h !! i = Some n → grad_only h (<[i := with_grad g n]> h).
Proof.
  intros Hi. unfold grad_only.
  apply Forall2_same_length_lookup_2; [by rewrite length_insert|].
  intros j m m' Hm Hm'. destruct (decide (i = j)) as [->|Hne].
  - rewrite list_lookup_insert_eq in Hm' by (by eapply lookup_lt_Some).
    by simplify_eq.
  - rewrite list_lookup_insert_ne in Hm' by done. simplify_eq. by destruct m.
Qed.

End Wf.

(** ** Attribute reads and writes *)

Section Store.
Context {num : Type} `{PyNum num}.
Implicit Types (h : heap num) (n : variable num) (c : closure num).

(** What [r.grad += x] makes of the gradient [g] of the object [p]. *)
Definition bump (p r : ref) (x g : num) : num :=
  if decide (p = r) then py_add g x else g.

Lemma get_grad_Some h r n : h !! r = Some n → get_grad h r = Some (grad n).
Proof. unfold get_grad. by intros ->. Qed.

Lemma get_data_Some h r n : h !! r = Some n → get_data h r = Some (data n).
Proof. unfold get_data. by intros ->. Qed.

Lemma set_grad_Some h r g n :
  h !! r = Some n → set_grad r g h = Some (<[r := with_grad g n]> h).
Proof. unfold set_grad. by intros ->. Qed.

Lemma iadd_grad_Some h r x n :
  h !! r = Some n →
  iadd_grad r x h = Some (<[r := with_grad (py_add (grad n) x) n]> h).
Proof. unfold iadd_grad, set_grad. by intros ->; simpl; intros; simplify_eq. Qed.

(** The store after [r.grad += x], object by object. *)
Lemma iadd_grad_lookup h r x h' p m :
  iadd_grad r x h = Some h' → h !! p = Some m →
  h' !! p = Some (with_grad (bump p r x (grad m)) m).
Proof.
  unfold iadd_grad, set_grad, bump. intros Hh Hp.
  destruct (h !! r) as [n|] eqn:Hr; simplify_eq/=.
  case_decide as Hpr.
  - subst p. simplify_eq. apply list_lookup_insert_eq. by eapply lookup_lt_Some.
  - rewrite list_lookup_insert_ne by done. rewrite Hp. by destruct m.
Qed.

Lemma iadd_grad_grad_only h r x h' :
  iadd_grad r x h = Some h' → grad_only h h'.
Proof.
  unfold iadd_grad, set_grad. intros Hh.
  destruct (h !! r) as [n|] eqn:Hr; simplify_eq/=.
  by apply grad_only_insert.
Qed.

Lemma set_grad_grad_only h r g h' :
  set_grad r g h = Some h' → grad_only h h'.
Proof.
  unfold set_grad. intros Hh.
  destruct (h !! r) as [n|] eqn:Hr; simplify_eq/=.
  by apply grad_only_insert.
Qed.

Lemma set_grad_lookup h r g h' p m :
  set_grad r g h = Some h' → h !! p = Some m →
  h' !! p = Some (if decide (p = r) then with_grad g m else m).
Proof.
  unfold set_grad. intros Hh Hp.
  destruct (h !! r) as [n|] eqn:Hr; simplify_eq/=.
  case_decide as Hpr.
  - subst p. simplify_eq. apply list_lookup_insert_eq. by eapply lookup_lt_Some.
  - by rewrite list_lookup_insert_ne.
Qed.

Lemma iadd_grad_is_Some h r x : r < length h → is_Some (iadd_grad r x h).
Proof.
  intros Hr. apply lookup_lt_is_Some in Hr as [n Hn].
  rewrite (iadd_grad_Some _ _ _ _ Hn). eauto.
Qed.

Lemma set_grad_is_Some h r g : r < length h → is_Some (set_grad r g h).
Proof.
  intros Hr. apply lookup_lt_is_Some in Hr as [n Hn].
  rewrite (set_grad_Some _ _ _ _ Hn). eauto.
Qed.

Lemma get_grad_is_Some h r : r < length h → is_Some (get_grad h r).
Proof.
  intros Hr. apply lookup_lt_is_Some in Hr as [n Hn].
  rewrite (get_grad_Some _ _ _ Hn). eauto.
Qed.

Lemma get_data_is_Some h r : r < length h → is_Some (get_data h r).
Proof.
  intros Hr. apply lookup_lt_is_Some in Hr as [n Hn].
  rewrite (get_data_Some _ _ _ Hn). eauto.
Qed.

Lemma iadd_grad_length h r x h' :
  iadd_grad r x h = Some h' → length h' = length h.
Proof. intros Hh. symmetry. by eapply grad_only_length, iadd_grad_grad_only. Qed.

End Store.

(** ** Calling a closure *)

Section Closures.
Context {num : Type} `{PyNum num}.
Implicit Types (h : heap num) (n : variable num) (c : closure num).

Lemma iadd_grad_lookup_ne h r x h' p :
  iadd_grad r x h = Some h' → p ≠ r → h' !! p = h !! p.
Proof.
  unfold iadd_grad, set_grad. intros Hh Hp.
  destruct (h !! r) as [n|] eqn:Hr; simplify_eq/=.
  by rewrite list_lookup_insert_ne.
Qed.

(** The objects a closure writes to. *)
Definition writes c : list ref :=
  match c with
  | lambda_None => []
  | add_backward s o _ | sub_backward s o _ | mul_backward s o _ => [s; o]
  | pow_backward s _ _ | relu_backward s _ => [s]
  end.

(** The objects a closure reads or writes. *)
Definition captured c : list ref :=
  match c with
  | lambda_None => []
  | add_backward s o out | sub_backward s o out | mul_backward s o out =>
      [s; o; out]
  | pow_backward s _ out | relu_backward s out => [s; out]
  end.

Ltac read_attr Hlt :=
  match goal with
  | |- context [get_grad ?h ?r] =>
      let g := fresh "g" in let Hg := fresh "Hg" in
      destruct (get_grad_is_Some h r) as [g Hg]; [Hlt|rewrite Hg; simpl]
  | |- context [get_data ?h ?r] =>
      let x := fresh "x" in let Hx := fresh "Hx" in
      destruct (get_data_is_Some h r) as [x Hx]; [Hlt|rewrite Hx; simpl]
  end.

Ltac write_attr Hlt :=
  match goal with
  | |- context [iadd_grad ?r ?x ?h] =>
      let h1 := fresh "h1" in let Hh := fresh "Hh" in
      destruct (iadd_grad_is_Some h r x) as [h1 Hh]; [Hlt|];
      rewrite Hh; simpl;
      pose proof (iadd_grad_length _ _ _ _ Hh);
      pose proof (iadd_grad_grad_only _ _ _ _ Hh);
      pose proof (λ p, iadd_grad_lookup_ne _ _ _ _ p Hh)
  end.

Ltac frame_done :=
  let p := fresh "p" in let Hp := fresh "Hp" in
  intros p Hp; rewrite !not_elem_of_cons in Hp; destruct_and?;
  repeat match goal with
         | Hl : ∀ q, q ≠ _ → _ !! q = _ !! q |- _ => rewrite Hl by done; clear Hl
         end;
  done.

(** A closure whose captured objects exist runs to the end, changes
    gradients only, and only those of the objects in [writes]. *)
Lemma run_closure_frame h c :
  Forall (λ r, r < length h) (captured c) →
  ∃ h', run_closure c h = Some h' ∧ grad_only h h' ∧
        ∀ p, p ∉ writes c → h' !! p = h !! p.
Proof.
  intros Hc.
  destruct c as [|s o out|s o out|s o out|s e out|s out]; simpl in *;
    repeat match goal with
           | Hf : Forall _ (_ :: _) |- _ => apply Forall_cons in Hf as [? Hf]
           end.
  - eexists; split_and!; [done|apply grad_only_refl|done].
  - read_attr lia. write_attr lia. read_attr lia. write_attr lia.
    eexists; split_and!; [done|by eapply grad_only_trans|frame_done].
  - read_attr lia. write_attr lia. read_attr lia. write_attr lia.
    eexists; split_and!; [done|by eapply grad_only_trans|frame_done].
  - read_attr lia. read_attr lia. write_attr lia. read_attr lia.
    read_attr lia. write_attr lia.
    eexists; split_and!; [done|by eapply grad_only_trans|frame_done].
  - read_attr lia. read_attr lia. write_attr lia.
    eexists; split_and!; [done|done|frame_done].
  - destruct (get_data_is_Some h s) as [x Hx]; [lia|rewrite Hx; simpl].
    destruct (py_le x py_0).
    + write_attr lia. eexists; split_and!; [done|done|frame_done].
    + read_attr lia. write_attr lia.
      eexists; split_and!; [done|done|frame_done].
Qed.

Lemma run_closure_length c h h' :
  run_closure c h = Some h' → length h' = length h.
Proof.
  destruct c; simpl; intros Hr;
    repeat match goal with
           | Hb : _ ≫= _ = Some _ |- _ => apply bind_Some in Hb as (? & ? & Hb)
           | Hb : (if ?b then _ else _) = Some _ |- _ => destruct b
           | Hb : iadd_grad _ _ _ = Some _ |- _ => apply iadd_grad_length in Hb
           | Hb : Some _ = Some _ |- _ => injection Hb as <-
           end; congruence.
Qed.

Lemma call_backward_length h v h' :
  call_backward v h = Some h' → length h' = length h.
Proof.
  unfold call_backward. intros (n & _ & Hr)%bind_Some.
  by eapply run_closure_length.
Qed.

(** In a well-formed store the closure of an object captures that
    object and its parents, and writes to parents only. *)
Lemma wf_captured h i n :
  wf_heap h → h !! i = Some n →
  Forall (λ r, r < length h) (captured (_backward n)) ∧
  writes (_backward n) ⊆ _prev n.
Proof.
  intros Hwf Hi. destruct (Hwf i n Hi) as [Hlt Hok].
  pose proof (lookup_lt_Some _ _ _ Hi) as Hlen.
  destruct (_backward n) as [|s o out|s o out|s o out|s e out|s out];
    simpl in *.
  { split; [apply Forall_nil_2|apply list_subseteq_nil]. }
  all: destruct Hok as [-> Hprev]; rewrite Hprev in *;
    repeat match goal with
           | Hf : Forall _ (_ :: _) |- _ => apply Forall_cons in Hf as [? Hf]
           end;
    (split; [repeat (apply Forall_cons_2 || apply Forall_nil_2); lia|done]).
Qed.

(** The objects that [v._backward()] writes to. *)
Definition writes_of h (v : ref) : list ref :=
  from_option (λ n, writes (_backward n)) [] (h !! v).

Lemma writes_of_parents h v : wf_heap h → writes_of h v ⊆ parents h v.
Proof.
  intros Hwf. unfold writes_of, parents.
  destruct (h !! v) as [n|] eqn:Hn; simpl; [|done].
  by destruct (wf_captured _ _ _ Hwf Hn).
Qed.

Lemma grad_only_writes_of h h' v :
  grad_only h h' → writes_of h' v = writes_of h v.
Proof.
  intros Hg. unfold writes_of. destruct (h !! v) as [n|] eqn:Hv.
  - destruct (grad_only_lookup _ _ _ _ Hg Hv) as [g ->]. done.
  - apply lookup_ge_None in Hv. rewrite (grad_only_length _ _ Hg) in Hv.
    apply lookup_ge_None in Hv. by rewrite Hv.
Qed.

(** [v._backward()] on an object of a well-formed store. *)
Lemma call_backward_frame h v :
  wf_heap h → v < length h →
  ∃ h', call_backward v h = Some h' ∧ grad_only h h' ∧
        ∀ p, p ∉ writes_of h v → h' !! p = h !! p.
Proof.
  intros Hwf Hv. apply lookup_lt_is_Some in Hv as [n Hn].
  destruct (wf_captured _ _ _ Hwf Hn) as [Hcap Hw].
  destruct (run_closure_frame h _ Hcap) as (h' & Hrun & Hg & Hfr).
  exists h'. unfold call_backward, writes_of. rewrite Hn. simpl.
  split_and!; done.
Qed.

End Closures.

(** ** The depth-first traversal *)

Section Traversal.
Context {num : Type} `{PyNum num}.
Implicit Types (h : heap num) (st : topo_state) (L : list ref).

(** No object twice, and every parent of an object at a strictly
    smaller position than the object. *)
Definition topo_sorted h L : Prop :=
  NoDup L ∧
  ∀ i v p, L !! i = Some v → p ∈ parents h v → ∃ j, j < i ∧ L !! j = Some p.

Lemma topo_sorted_nil h : topo_sorted h [].
Proof. split; [constructor|]. intros i v p Hi. by rewrite lookup_nil in Hi. Qed.

Lemma topo_sorted_snoc h L v :
  topo_sorted h L → v ∉ L → (∀ p, p ∈ parents h v → p ∈ L) →
  topo_sorted h (L ++ [v]).
Proof.
  intros [Hnd Hord] Hv Hpar. split.
  - apply NoDup_app. split_and!; [done| |apply NoDup_singleton].
    intros x Hx ->%list_elem_of_singleton. done.
  - intros i w p Hi Hp. apply lookup_snoc_Some in Hi as [[Hlt Hi]|[-> ->]].
    + destruct (Hord i w p Hi Hp) as (j & Hj & Hjp).
      exists j. split; [done|]. by apply lookup_app_l_Some.
    + apply Hpar, list_elem_of_lookup in Hp as [j Hj].
      exists j. split; [by eapply lookup_lt_Some|by apply lookup_app_l_Some].
Qed.

(** A sorted list that holds [root] holds all that [root] reaches. *)
Lemma topo_sorted_closed h L root x :
  topo_sorted h L → root ∈ L → reachable h root x → x ∈ L.
Proof.
  intros [_ Hord] Hroot. induction 1 as [|v p _ IH Hp]; [done|].
  apply list_elem_of_lookup in IH as [i Hi].
  destruct (Hord i v p Hi Hp) as (j & _ & Hj).
  by eapply list_elem_of_lookup_2.
Qed.

(** The state between two calls of [build_topo]: the objects visited
    but not yet appended are the callers still on the stack, all of
    them allocated at [b] or later. *)
Definition dfs_inv h (b : nat) st : Prop :=
  topo_sorted h st.2 ∧
  (∀ x, x ∈ st.2 → x ∈ st.1) ∧
  (∀ x, x ∈ st.1 → x ∉ st.2 → b ≤ x).

(** What the calls [build_topo(c)] for [c] in [roots] did to the state. *)
Definition dfs_post h (roots : list ref) st st' : Prop :=
  topo_sorted h st'.2 ∧
  (∀ x, x ∈ st'.2 → x ∈ st'.1) ∧
  (∀ x, x ∈ st.1 → x ∈ st'.1) ∧
  (∀ x, x ∈ st'.1 → x ∉ st'.2 → x ∈ st.1 ∧ x ∉ st.2) ∧
  (∀ c, c ∈ roots → c ∈ st'.2) ∧
  ∃ new, st'.2 = st.2 ++ new ∧
         ∀ x, x ∈ new → ∃ c, c ∈ roots ∧ reachable h c x.

Lemma dfs_post_inv h roots b st st' :
  dfs_inv h b st → dfs_post h roots st st' → dfs_inv h b st'.
Proof.
  intros (_ & _ & Hpend) (Hs & Hsub & _ & Hpre & _).
  split_and!; [done..|]. intros x Hx Hnx.
  destruct (Hpre x Hx Hnx). by apply Hpend.
Qed.

Lemma dfs_post_nil h b st : dfs_inv h b st → dfs_post h [] st st.
Proof.
  intros (Hs & Hsub & _). split_and!; [done..| |exists []].
  - by intros c ?%elem_of_nil.
  - split; [by rewrite app_nil_r|]. by intros x ?%elem_of_nil.
Qed.

Lemma dfs_post_cons h c cs st st1 st2 :
  dfs_post h [c] st st1 → dfs_post h cs st1 st2 → dfs_post h (c :: cs) st st2.
Proof.
  intros (_ & _ & Hmono1 & Hpre1 & Hin1 & new1 & Hnew1 & Hr1)
         (Hs & Hsub & Hmono2 & Hpre2 & Hin2 & new2 & Hnew2 & Hr2).
  split_and!; [done|done|by auto| | |].
  - intros x Hx Hnx. destruct (Hpre2 x Hx Hnx). by apply Hpre1.
  - intros x [->|Hx]%elem_of_cons; [|by auto].
    rewrite Hnew2. apply elem_of_app. left. apply Hin1. by left.
  - exists (new1 ++ new2). split; [by rewrite Hnew2, Hnew1, app_assoc|].
    intros x [Hx|Hx]%elem_of_app.
    + destruct (Hr1 x Hx) as (c' & ->%list_elem_of_singleton & Hc').
      exists c. split; [by left|done].
    + destruct (Hr2 x Hx) as (c' & Hc' & Hreach).
      exists c'. split; [by right|done].
Qed.

(** The loop [for child in v._prev: build_topo(child)], given what a
    single call does. *)
Lemma for_each_build_topo h fuel :
  (∀ v st b, v < fuel → v < b → v < length h → dfs_inv h b st →
     ∃ st', build_topo fuel h v st = Some st' ∧ dfs_post h [v] st st') →
  ∀ cs st b,
    Forall (λ c, c < fuel ∧ c < b ∧ c < length h) cs → dfs_inv h b st →
    ∃ st', for_each (build_topo fuel h) cs st = Some st' ∧
           dfs_post h cs st st'.
Proof.
  intros IH cs. induction cs as [|c cs IHcs]; intros st b Hcs Hinv; simpl.
  - exists st. split; [done|by eapply dfs_post_nil].
  - apply Forall_cons in Hcs as [(Hc1 & Hc2 & Hc3) Hcs].
    destruct (IH c st b Hc1 Hc2 Hc3 Hinv) as (st1 & -> & Hpost1). simpl.
    destruct (IHcs st1 b Hcs (dfs_post_inv _ _ _ _ _ Hinv Hpost1))
      as (st2 & -> & Hpost2).
    exists st2. split; [done|by eapply dfs_post_cons].
Qed.

(** [build_topo(v)] returns, with [v] and all it reaches appended in
    sorted order, and with [v] last if it had not been visited. *)
Lemma build_topo_spec h :
  wf_heap h →
  ∀ fuel v st b, v < fuel → v < b → v < length h → dfs_inv h b st →
    ∃ st', build_topo fuel h v st = Some st' ∧ dfs_post h [v] st st' ∧
           (v ∉ st.1 → last st'.2 = Some v).
Proof.
  intros Hwf fuel. induction fuel as [|fuel IH]; intros v st b Hf Hb Hv Hinv;
    [lia|].
  simpl. destruct Hinv as (Hs & Hsub & Hpend). case_decide as Hvis.
  - assert (v ∈ st.2) as Hin.
    { destruct (decide (v ∈ st.2)) as [|Hn]; [done|].
      specialize (Hpend v Hvis Hn). lia. }
    exists st. split_and!; [done| |done].
    split_and!; [done..| |exists []].
    + by intros c ->%list_elem_of_singleton.
    + split; [by rewrite app_nil_r|]. by intros x ?%elem_of_nil.
  - destruct (lookup_lt_is_Some_2 _ _ Hv) as [n Hn]. rewrite Hn. simpl.
    assert (parents h v = _prev n) as Hpar by (unfold parents; by rewrite Hn).
    set (st1 := ({[v]} ∪ st.1, st.2) : topo_state).
    assert (dfs_inv h v st1) as Hinv1.
    { split_and!; [done|..]; simpl.
      - intros x Hx. apply elem_of_union. right. by apply Hsub.
      - intros x [->%elem_of_singleton|Hx]%elem_of_union Hnx; [done|].
        specialize (Hpend x Hx Hnx). lia. }
    assert (Forall (λ c, c < fuel ∧ c < v ∧ c < length h) (_prev n)) as Hcs.
    { apply Forall_forall. intros c Hc. rewrite <- Hpar in Hc.
      pose proof (wf_parent_lt _ _ _ Hwf Hc). lia. }
    destruct (for_each_build_topo h fuel) with (cs := _prev n) (st := st1)
      (b := v) as (st2 & -> & Hpost); [|done|done|].
    { intros w st0 b0 ? ? ? Hinv0.
      destruct (IH w st0 b0) as (st' & ? & ? & _); eauto. }
    simpl. destruct Hpost as (Hs2 & Hsub2 & Hmono & Hpre & Hin & new & Hnew & Hr).
    simpl in *.
    assert (v ∉ st2.2) as Hfresh.
    { rewrite Hnew. intros [Hx|Hx]%elem_of_app; [by apply Hvis, Hsub|].
      destruct (Hr v Hx) as (c & Hc & Hreach). rewrite <- Hpar in Hc.
      pose proof (wf_parent_lt _ _ _ Hwf Hc).
      pose proof (reachable_le _ _ _ Hwf Hreach). lia. }
    eexists. split_and!; [done| |by intros; apply last_snoc]. simpl.
    split_and!; simpl.
    + apply topo_sorted_snoc; [done..|]. intros p Hp. apply Hin. by rewrite <- Hpar.
    + intros x [Hx| ->%list_elem_of_singleton]%elem_of_app; [by apply Hsub2|].
      apply Hmono, elem_of_union. left. by apply elem_of_singleton.
    + intros x Hx. apply Hmono, elem_of_union. by right.
    + intros x Hx Hnx. rewrite elem_of_app, list_elem_of_singleton in Hnx.
      destruct (Hpre x Hx) as [Hx1 Hx2]; [tauto|].
      split; [|done]. apply elem_of_union in Hx1 as [->%elem_of_singleton|]; tauto.
    + intros c ->%list_elem_of_singleton. apply elem_of_app. right.
      by apply list_elem_of_singleton.
    + exists (new ++ [v]). split; [by rewrite Hnew, app_assoc|].
      intros x [Hx| ->%list_elem_of_singleton]%elem_of_app.
      * destruct (Hr x Hx) as (c & Hc & Hreach). exists v.
        split; [by apply list_elem_of_singleton|].
        eapply reachable_trans; [|done].
        eapply reach_parent; [constructor|by rewrite Hpar].
      * exists v. split; [by apply list_elem_of_singleton|constructor].
Qed.

(** The traversal [backward] starts with: it returns, and [topo] lists
    exactly the objects reachable from [root], sorted, [root] last. *)
Lemma build_topo_root h root :
  wf_heap h → root < length h →
  ∃ st, build_topo (S (length h)) h root (∅, []) = Some st ∧
        topo_sorted h st.2 ∧
        (∀ x, x ∈ st.2 ↔ reachable h root x) ∧
        last st.2 = Some root.
Proof.
  intros Hwf Hroot.
  destruct (build_topo_spec h Hwf (S (length h)) root (∅, []) (S root))
    as (st & Hrun & Hpost & Hlast); [lia|lia|done| |].
  { split_and!; simpl; [apply topo_sorted_nil|..].
    - by intros x ?%elem_of_nil.
    - by intros x ?%elem_of_empty. }
  destruct Hpost as (Hs & _ & _ & _ & Hin & new & Hnew & Hr). simpl in *.
  exists st. split_and!; [done..| |by apply Hlast, not_elem_of_empty].
  intros x. split.
  - rewrite Hnew. simpl. intros Hx.
    by destruct (Hr x Hx) as (c & ->%list_elem_of_singleton & Hc).
  - apply topo_sorted_closed; [done|]. apply Hin. by apply list_elem_of_singleton.
Qed.

(** The traversal reads [_prev] only. *)
Lemma build_topo_grad_only h h' fuel v st :
  grad_only h h' → build_topo fuel h' v st = build_topo fuel h v st.
Proof.
  intros Hg. revert v st. induction fuel as [|fuel IH]; intros v st; [done|].
  simpl. case_decide; [done|].
  assert (∀ cs st0, for_each (build_topo fuel h') cs st0
                    = for_each (build_topo fuel h) cs st0) as Hloop.
  { induction cs as [|c cs IHcs]; intros st0; simpl; [done|].
    rewrite IH. destruct (build_topo fuel h c st0); simpl; [apply IHcs|done]. }
  destruct (h !! v) as [n|] eqn:Hn.
  - destruct (grad_only_lookup _ _ _ _ Hg Hn) as [g ->]. simpl. by rewrite Hloop.
  - apply lookup_ge_None in Hn. rewrite (grad_only_length _ _ Hg) in Hn.
    apply lookup_ge_None in Hn. by rewrite Hn.
Qed.

End Traversal.

(** ** The backward pass *)

Section Backward.
Context {num : Type} `{PyNum num}.
Implicit Types (h : heap num) (L : list ref).

Lemma for_each_logged {S A} (body : A → S → option S) xs s log :
  for_each (logged body) xs (s, log)
  = (λ s', (s', log ++ xs)) <$> for_each body xs s.
Proof.
  revert s log. induction xs as [|x xs IH]; intros s log; simpl.
  - by rewrite app_nil_r.
  - replace (logged body x (s, log))
      with (body x s ≫= λ s1, Some (s1, log ++ [x])) by done.
    destruct (body x s) as [s1|]; simpl; [|done].
    by rewrite IH, <- app_assoc.
Qed.

Lemma backward_logged_erase root h :
  fst <$> backward_logged root h = backward root h.
Proof.
  unfold backward_logged, backward.
  destruct (build_topo _ _ _ _) as [st|]; simpl; [|done].
  destruct (set_grad _ _ _) as [h1|]; simpl; [|done].
  rewrite for_each_logged. by destruct (for_each _ _ _).
Qed.

(** The loop [for v in L: v._backward()] over objects of a well-formed
    store runs to the end, changes gradients only, and leaves alone
    every object that no closure of an object of [L] writes to. *)
Lemma call_loop_frame h L :
  wf_heap h → Forall (λ v, v < length h) L →
  ∃ h', for_each call_backward L h = Some h' ∧ grad_only h h' ∧
        ∀ p, (∀ v, v ∈ L → p ∉ writes_of h v) → h' !! p = h !! p.
Proof.
  revert h. induction L as [|v L IH]; intros h Hwf HL; simpl.
  - exists h. split_and!; [done|apply grad_only_refl|done].
  - apply Forall_cons in HL as [Hv HL].
    destruct (call_backward_frame h v Hwf Hv) as (h1 & -> & Hg1 & Hfr1). simpl.
    destruct (IH h1) as (h' & -> & Hg & Hfr).
    { by eapply grad_only_wf. }
    { by rewrite <- (grad_only_length _ _ Hg1). }
    exists h'. split_and!; [done|by eapply grad_only_trans|].
    intros p Hp. rewrite Hfr, Hfr1; [done|apply Hp; by left|].
    intros w Hw. rewrite (grad_only_writes_of _ _ _ Hg1). apply Hp. by right.
Qed.

(** The three steps of [backward] on a well-formed store. *)
Lemma backward_steps h root :
  wf_heap h → root < length h →
  ∃ st h1 h',
    build_topo (S (length h)) h root (∅, []) = Some st ∧
    set_grad root py_1 h = Some h1 ∧
    for_each call_backward (reverse st.2) h1 = Some h' ∧
    backward root h = Some h' ∧
    backward_logged root h = Some (h', reverse st.2) ∧
    grad_only h h1 ∧ grad_only h1 h' ∧
    (∀ p, (∀ v, reachable h root v → p ∉ writes_of h v) → h' !! p = h1 !! p).
Proof.
  intros Hwf Hroot.
  destruct (build_topo_root h root Hwf Hroot) as (st & Hst & Hs & Hin & Hlast).
  destruct (set_grad_is_Some h root py_1 Hroot) as [h1 Hh1].
  pose proof (set_grad_grad_only _ _ _ _ Hh1) as Hg1.
  destruct (call_loop_frame h1 (reverse st.2)) as (h' & Hloop & Hg & Hfr).
  { by eapply grad_only_wf. }
  { apply Forall_forall. intros v Hv%elem_of_reverse%Hin.
    rewrite <- (grad_only_length _ _ Hg1). by eapply reachable_valid. }
  exists st, h1, h'. unfold backward, backward_logged.
  rewrite Hst, Hh1. simpl. rewrite for_each_logged, Hloop. simpl.
  split_and!; [done..|].
  intros p Hp. apply Hfr. intros v Hv%elem_of_reverse%Hin.
  rewrite (grad_only_writes_of _ _ _ Hg1). by apply Hp.
Qed.

(** In particular an object that is no parent of a reachable object
    keeps the gradient it has after the seeding. *)
Lemma backward_steps_parents h root p :
  wf_heap h → (∀ v, reachable h root v → p ∉ parents h v) →
  ∀ v, reachable h root v → p ∉ writes_of h v.
Proof.
  intros Hwf Hp v Hv Hw. apply (Hp v Hv). by apply (writes_of_parents h v Hwf).
Qed.

End Backward.

(** ** The table of local derivatives

    What each closure adds to the gradients of the operands, as the
    list of additions [(r, x)], standing for [r.grad += x], in the
    order in which the closure makes them.  [g] is the gradient of
    [out] when the closure is called. *)

Section Rules.
Context {num : Type} `{PyNum num}.
Implicit Types (h : heap num) (n : variable num) (c : closure num).

Definition local_derivatives c h : option (list (ref * num)) :=
  match c with
  | lambda_None => Some []
  | add_backward a b out =>
      g ← get_grad h out; Some [(a, g); (b, g)]
  | sub_backward a b out =>
      g ← get_grad h out; Some [(a, g); (b, py_mul (py_neg py_1) g)]
  | mul_backward a b out =>
      g ← get_grad h out; x ← get_data h a; y ← get_data h b;
      Some [(a, py_mul g y); (b, py_mul g x)]
  | pow_backward a k out =>
      g ← get_grad h out; x ← get_data h a;
      Some [(a, py_mul (py_mul g k) (py_pow x (py_sub k py_1)))]
  | relu_backward a out =>
      x ← get_data h a;
      if py_le x py_0 then Some [(a, py_0)]
      else g ← get_grad h out; Some [(a, g)]
  end.

(** The additions of a list, made one after the other. *)
Definition add_all (cs : list (ref * num)) h : option (heap num) :=
  for_each (λ rx, iadd_grad rx.1 rx.2) cs h.

(** The gradient of [p] after the additions [cs], from [g]. *)
Definition bump_all (p : ref) (cs : list (ref * num)) (g : num) : num :=
  foldl (λ g rx, bump p rx.1 rx.2 g) g cs.

Lemma add_all_lookup cs h h' p m :
  add_all cs h = Some h' → h !! p = Some m →
  h' !! p = Some (with_grad (bump_all p cs (grad m)) m).
Proof.
  unfold add_all. revert h m. induction cs as [|[r x] cs IH]; intros h m; simpl.
  - intros ? Hp. simplify_eq. rewrite Hp. by destruct m.
  - intros Hrun Hp. destruct (iadd_grad r x h) as [h1|] eqn:Hh1; [|done].
    simpl in Hrun. pose proof (iadd_grad_lookup _ _ _ _ _ _ Hh1 Hp) as Hp1.
    apply (IH _ _ Hrun Hp1).
Qed.

Lemma add_all_is_Some cs h :
  Forall (λ rx, rx.1 < length h) cs → is_Some (add_all cs h).
Proof.
  unfold add_all. revert h. induction cs as [|[r x] cs IH]; intros h Hcs; simpl.
  - eauto.
  - apply Forall_cons in Hcs as [Hr Hcs]. simpl in Hr.
    destruct (iadd_grad_is_Some h r x Hr) as [h1 Hh1]. rewrite Hh1. simpl.
    apply IH. by rewrite (iadd_grad_length _ _ _ _ Hh1).
Qed.

Lemma get_grad_iadd_ne h r x h' p :
  iadd_grad r x h = Some h' → p ≠ r → get_grad h' p = get_grad h p.
Proof.
  intros Hh Hp. unfold get_grad. by rewrite (iadd_grad_lookup_ne _ _ _ _ _ Hh).
Qed.

Lemma get_data_iadd h r x h' p :
  iadd_grad r x h = Some h' → get_data h' p = get_data h p.
Proof.
  intros Hh. unfold get_data. destruct (h !! p) as [m|] eqn:Hm.
  - by rewrite (iadd_grad_lookup _ _ _ _ _ _ Hh Hm).
  - apply lookup_ge_None in Hm. rewrite <- (iadd_grad_length _ _ _ _ Hh) in Hm.
    apply lookup_ge_None in Hm. by rewrite Hm.
Qed.

(** The object a closure reads the gradient of. *)
Definition closure_out c : option ref :=
  match c with
  | lambda_None => None
  | add_backward _ _ out | sub_backward _ _ out | mul_backward _ _ out
  | pow_backward _ _ out | relu_backward _ out => Some out
  end.

(** A closure makes the additions of the table, provided [out] is not
    one of its own operands. *)
Lemma run_closure_table c h :
  (∀ out, closure_out c = Some out → out ∉ writes c) →
  run_closure c h = cs ← local_derivatives c h; add_all cs h.
Proof.
  intros Hout. unfold add_all.
  destruct c as [|a b out|a b out|a b out|a k out|a out]; simpl in *; [done|..];
    specialize (Hout out eq_refl); rewrite ?not_elem_of_cons in Hout;
    destruct_and?.
  - destruct (get_grad h out) as [g|] eqn:Hg; simpl; [|done].
    destruct (iadd_grad a g h) as [h1|] eqn:Hh1; simpl; [|done].
    rewrite (get_grad_iadd_ne _ _ _ _ _ Hh1), Hg by done. simpl.
    by destruct (iadd_grad b g h1).
  - destruct (get_grad h out) as [g|] eqn:Hg; simpl; [|done].
    destruct (iadd_grad a g h) as [h1|] eqn:Hh1; simpl; [|done].
    rewrite (get_grad_iadd_ne _ _ _ _ _ Hh1), Hg by done. simpl.
    by destruct (iadd_grad b _ h1).
  - destruct (get_grad h out) as [g|] eqn:Hg; simpl; [|done].
    destruct (get_data h a) as [x|] eqn:Hx; simpl.
    + destruct (get_data h b) as [y|] eqn:Hy; simpl; [|done].
      destruct (iadd_grad a _ h) as [h1|] eqn:Hh1; simpl; [|done].
      rewrite (get_grad_iadd_ne _ _ _ _ _ Hh1), Hg by done. simpl.
      rewrite (get_data_iadd _ _ _ _ _ Hh1), Hx. simpl.
      by destruct (iadd_grad b _ h1).
    + destruct (get_data h b) as [y|] eqn:Hy; simpl; [|done].
      unfold iadd_grad, get_data in *. by destruct (h !! a).
  - destruct (get_grad h out) as [g|] eqn:Hg; simpl; [|done].
    destruct (get_data h a) as [x|] eqn:Hx; simpl; [|done].
    by destruct (iadd_grad a _ h).
  - destruct (get_data h a) as [x|] eqn:Hx; simpl.
    + destruct (py_le x py_0); simpl.
      * by destruct (iadd_grad a _ h).
      * destruct (get_grad h out) as [g|] eqn:Hg; simpl; [|done].
        by destruct (iadd_grad a _ h).
    + done.
Qed.

End Rules.

(** ** What the operators allocate *)

Section Operators.
Context {num : Type} `{PyNum num}.
Implicit Types (h : heap num) (n : variable num) (c : closure num).

(** The leaf that [lift] makes of a raw number. *)
Definition leaf_of (x : num) : variable num :=
  mk_variable x (py_str x) py_0 [] "" lambda_None.

Lemma set_backward_new h n c :
  set_backward (length h) c (h ++ [n]) = Some (h ++ [with_backward c n]).
Proof.
  unfold set_backward. rewrite list_lookup_middle by done. simpl.
  f_equal. by rewrite insert_app_r_alt, Nat.sub_diag by done.
Qed.

Lemma lift_Obj h b : lift (Obj b) h = (h, b).
Proof. done. Qed.

Lemma lift_Raw h x : lift (Raw x) h = (h ++ [leaf_of x], length h).
Proof. done. Qed.

Lemma add_lifted h a other h1 b na nb :
  lift other h = (h1, b) → h1 !! a = Some na → h1 !! b = Some nb →
  __add__ a other h
  = Some (h1 ++ [mk_variable (py_add (data na) (data nb)) "" py_0 [a; b] "+"
                   (add_backward a b (length h1))], length h1).
Proof.
  intros Hl Ha Hb. unfold __add__. rewrite Hl.
  rewrite (get_data_Some _ _ _ Ha), (get_data_Some _ _ _ Hb). simpl.
  by rewrite set_backward_new.
Qed.

Lemma sub_lifted h a other h1 b na nb :
  lift other h = (h1, b) → h1 !! a = Some na → h1 !! b = Some nb →
  __sub__ a other h
  = Some (h1 ++ [mk_variable (py_sub (data na) (data nb)) (label na) py_0
                   [a; b] "-" (sub_backward a b (length h1))], length h1).
Proof.
  intros Hl Ha Hb. unfold __sub__. rewrite Hl, Ha. simpl.
  rewrite (get_data_Some _ _ _ Hb). simpl. by rewrite set_backward_new.
Qed.

Lemma mul_lifted h a other h1 b na nb :
  lift other h = (h1, b) → h1 !! a = Some na → h1 !! b = Some nb →
  __mul__ a other h
  = Some (h1 ++ [mk_variable (py_mul (data na) (data nb)) (label na) py_0
                   [a; b] "*" (mul_backward a b (length h1))], length h1).
Proof.
  intros Hl Ha Hb. unfold __mul__. rewrite Hl, Ha. simpl.
  rewrite (get_data_Some _ _ _ Hb). simpl. by rewrite set_backward_new.
Qed.

Lemma pow_new h a k na :
  h !! a = Some na →
  __pow__ a k h
  = Some (h ++ [mk_variable (py_pow (data na) k) (label na) py_0 [a] "pow"
                  (pow_backward a k (length h))], length h).
Proof. intros Ha. unfold __pow__. rewrite Ha. simpl. by rewrite set_backward_new. Qed.

Lemma relu_new h a na :
  h !! a = Some na →
  relu a h
  = Some (h ++ [mk_variable (py_max py_0 (data na)) (label na) py_0 [a] "relu"
                  (relu_backward a (length h))], length h).
Proof. intros Ha. unfold relu. rewrite Ha. simpl. by rewrite set_backward_new. Qed.

Lemma tanh_new np_tanh h a na :
  h !! a = Some na →
  tanh np_tanh a h
  = Some (h ++ [mk_variable (np_tanh (data na)) (label na) py_0 [a] "tanh"
                  lambda_None], length h).
Proof. intros Ha. unfold tanh. by rewrite Ha. Qed.

(** Allocation keeps the store well formed. *)
Lemma wf_heap_snoc h n : wf_heap h → node_ok (length h) n → wf_heap (h ++ [n]).
Proof.
  intros Hwf Hn i m [[_ Hi]|[-> ->]]%lookup_snoc_Some; [by apply Hwf|done].
Qed.

Lemma wf_heap_nil : wf_heap ([] : heap num).
Proof. intros i n Hi. by rewrite lookup_nil in Hi. Qed.

Lemma wf_heap_leaf h d lbl g op :
  wf_heap h → wf_heap (Variable_init d lbl g op [] h).1.
Proof. intros Hwf. apply wf_heap_snoc; [done|]. by split; [constructor|]. Qed.

Lemma lift_lt h other h1 b :
  lift other h = (h1, b) → is_Some (h1 !! b) →
  length h ≤ length h1 ∧ (wf_heap h → wf_heap h1).
Proof.
  destruct other as [r|x]; [rewrite lift_Obj|rewrite lift_Raw];
    intros [= <- <-] _.
  - done.
  - rewrite length_app. simpl. split; [lia|apply wf_heap_leaf].
Qed.

(** Every operator keeps the store well formed. *)
Lemma operators_wf h a other k np_tanh h' out :
  wf_heap h →
  __add__ a other h = Some (h', out) ∨ __sub__ a other h = Some (h', out) ∨
  __mul__ a other h = Some (h', out) ∨ __pow__ a k h = Some (h', out) ∨
  relu a h = Some (h', out) ∨ tanh np_tanh a h = Some (h', out) →
  wf_heap h'.
Proof.
  intros Hwf Hop.
  assert (∀ h1 b, lift other h = (h1, b) → is_Some (h1 !! a) →
                  is_Some (h1 !! b) → ∀ c op d lbl,
            closure_ok (length h1) [a; b] c →
            wf_heap (h1 ++ [mk_variable d lbl py_0 [a; b] op c])) as Hbin.
  { intros h1 b Hl Ha Hb c op d lbl Hc.
    destruct (lift_lt _ _ _ _ Hl Hb) as [_ Hwf1].
    apply wf_heap_snoc; [by auto|]. split; [|done]. simpl.
    apply lookup_lt_is_Some in Ha, Hb. repeat constructor; lia. }
  assert (∀ c op d lbl, is_Some (h !! a) → closure_ok (length h) [a] c →
            wf_heap (h ++ [mk_variable d lbl py_0 [a] op c])) as Hun.
  { intros c op d lbl Ha%lookup_lt_is_Some Hc.
    apply wf_heap_snoc; [done|]. split; [|done]. simpl. repeat constructor; lia. }
  destruct Hop as [Hop|[Hop|[Hop|[Hop|[Hop|Hop]]]]].
  - destruct (lift other h) as [h1 b] eqn:Hl.
    destruct (h1 !! a) as [na|] eqn:Ha;
      [|by unfold __add__, get_data in Hop; rewrite Hl, Ha in Hop].
    destruct (h1 !! b) as [nb|] eqn:Hb;
      [|by unfold __add__, get_data in Hop; rewrite Hl, Ha, ?Hb in Hop].
    rewrite (add_lifted _ _ _ _ _ _ _ Hl Ha Hb) in Hop. simplify_eq.
    eapply Hbin; eauto. by simpl.
  - destruct (lift other h) as [h1 b] eqn:Hl.
    destruct (h1 !! a) as [na|] eqn:Ha;
      [|by unfold __sub__, get_data in Hop; rewrite Hl, Ha in Hop].
    destruct (h1 !! b) as [nb|] eqn:Hb;
      [|by unfold __sub__, get_data in Hop; rewrite Hl, Ha, ?Hb in Hop].
    rewrite (sub_lifted _ _ _ _ _ _ _ Hl Ha Hb) in Hop. simplify_eq.
    eapply Hbin; eauto. by simpl.
  - destruct (lift other h) as [h1 b] eqn:Hl.
    destruct (h1 !! a) as [na|] eqn:Ha;
      [|by unfold __mul__, get_data in Hop; rewrite Hl, Ha in Hop].
    destruct (h1 !! b) as [nb|] eqn:Hb;
      [|by unfold __mul__, get_data in Hop; rewrite Hl, Ha, ?Hb in Hop].
    rewrite (mul_lifted _ _ _ _ _ _ _ Hl Ha Hb) in Hop. simplify_eq.
    eapply Hbin; eauto. by simpl.
  - destruct (h !! a) as [na|] eqn:Ha; [|by unfold __pow__ in Hop; rewrite Ha in Hop].
    rewrite (pow_new _ _ _ _ Ha) in Hop. simplify_eq. apply Hun; by eauto.
  - destruct (h !! a) as [na|] eqn:Ha; [|by unfold relu in Hop; rewrite Ha in Hop].
    rewrite (relu_new _ _ _ Ha) in Hop. simplify_eq. apply Hun; by eauto.
  - destruct (h !! a) as [na|] eqn:Ha; [|by unfold tanh in Hop; rewrite Ha in Hop].
    rewrite (tanh_new _ _ _ _ Ha) in Hop. simplify_eq. apply Hun; by eauto.
Qed.

(** A call of [out._backward()] makes the additions of the table. *)
Lemma call_backward_table h out n :
  h !! out = Some n →
  (∀ o, closure_out (_backward n) = Some o → o ∉ writes (_backward n)) →
  call_backward out h = cs ← local_derivatives (_backward n) h; add_all cs h.
Proof.
  intros Hn Hout. unfold call_backward. rewrite Hn. simpl.
  by apply run_closure_table.
Qed.

End Operators.

(** ** Counting calls *)

Section Counting.
Context {num : Type} `{PyNum num}.
Implicit Types (h : heap num) (L : list ref).

Lemma count_occ_NoDup L v :
  NoDup L → count_occ Nat.eq_dec L v = if decide (v ∈ L) then 1 else 0.
Proof.
  induction 1 as [|x L Hx _ IH]; cbn [count_occ].
  - rewrite decide_False; [done|apply not_elem_of_nil].
  - rewrite IH. destruct (Nat.eq_dec x v) as [->|Hne].
    + rewrite (decide_False (P := v ∈ L)) by done.
      rewrite decide_True; [done|by left].
    + destruct (decide (v ∈ L)) as [Hv|Hv].
      * rewrite decide_True; [done|by right].
      * rewrite decide_False; [done|]. intros [?|?]%elem_of_cons; by simplify_eq.
Qed.

Lemma root_not_parent h root v :
  wf_heap h → reachable h root v → root ∉ parents h v.
Proof.
  intros Hwf Hv Hp. pose proof (wf_parent_lt _ _ _ Hwf Hp).
  pose proof (reachable_le _ _ _ Hwf Hv). lia.
Qed.

End Counting.

Section CallTable.
Context {num : Type} `{PyNum num}.

(** A call of [out._backward()], object by object, from the table. *)
Lemma call_table_lookup (h : heap num) out n cs :
  h !! out = Some n →
  (∀ o, closure_out (_backward n) = Some o → o ∉ writes (_backward n)) →
  local_derivatives (_backward n) h = Some cs →
  Forall (λ rx, rx.1 < length h) cs →
  ∃ h', call_backward out h = Some h' ∧
        ∀ x m, h !! x = Some m →
               h' !! x = Some (with_grad (bump_all x cs (grad m)) m).
Proof.
  intros Hn Hout Hcs Hlt.
  rewrite (call_backward_table _ _ _ Hn Hout), Hcs. simpl.
  destruct (add_all_is_Some cs h Hlt) as [h' Hh']. exists h'.
  split; [done|]. intros x m Hx. by apply (add_all_lookup _ _ _ _ _ Hh').
Qed.

End CallTable.

(** ** Two passes in a row *)

Section Passes.
Context {num : Type} `{PyNum num}.
Implicit Types (h : heap num) (c : closure num).

(** The final loop of [backward] calls the closure of [root] first,
    on the seeded store, and then those of the other reachable
    objects. *)
Lemma backward_root_first h root :
  wf_heap h → root < length h →
  ∃ T hs ha h',
    (∃ visited, build_topo (S (length h)) h root (∅, [])
                = Some (visited, T ++ [root])) ∧
    set_grad root py_1 h = Some hs ∧
    call_backward root hs = Some ha ∧
    for_each call_backward (reverse T) ha = Some h' ∧
    backward root h = Some h' ∧
    grad_only h hs ∧ grad_only hs ha ∧ grad_only ha h' ∧
    (∀ v, v ∈ T → reachable h root v ∧ v ≠ root) ∧
    (∀ p, (∀ v, v ∈ T → p ∉ writes_of h v) → h' !! p = ha !! p).
Proof.
  intros Hwf Hroot.
  destruct (build_topo_root h root Hwf Hroot)
    as ([visited topo] & Hst & [Hnd _] & Hin & [T HT]%last_Some).
  simpl in Hnd, Hin, HT. subst topo.
  destruct (backward_steps h root Hwf Hroot)
    as (st & hs & h' & Hst' & Hseed & Hloop & Hb & _ & Hg1 & _ & _).
  rewrite Hst in Hst'. simplify_eq. simpl in Hloop.
  rewrite reverse_snoc in Hloop. simpl in Hloop.
  destruct (call_backward root hs) as [ha|] eqn:Hha; [|done]. simpl in Hloop.
  assert (wf_heap hs) as Hwfs by (by eapply grad_only_wf).
  destruct (call_backward_frame hs root Hwfs) as (ha' & Hha' & Hga & _).
  { by rewrite <- (grad_only_length _ _ Hg1). }
  rewrite Hha in Hha'. simplify_eq.
  assert (∀ v, v ∈ T → reachable h root v ∧ v ≠ root) as HT'.
  { intros v Hv. split; [apply Hin, elem_of_app; by left|].
    intros ->. apply NoDup_app in Hnd as (_ & Hnd & _).
    apply (Hnd root Hv). by apply list_elem_of_singleton. }
  destruct (call_loop_frame ha' (reverse T)) as (h'' & Hloop' & Hg & Hfr).
  { by eapply grad_only_wf. }
  { apply Forall_forall. intros v Hv. rewrite elem_of_reverse in Hv.
    rewrite <- (grad_only_length _ _ Hga), <- (grad_only_length _ _ Hg1).
    apply (reachable_valid h root); [done|done|by apply HT']. }
  rewrite Hloop in Hloop'. simplify_eq.
  exists T, hs, ha', h''. split_and!; [by eauto|done..|].
  intros p Hp. apply Hfr. intros v Hv. rewrite elem_of_reverse in Hv.
  rewrite (grad_only_writes_of _ _ _ (grad_only_trans _ _ _ Hg1 Hga)).
  by apply Hp.
Qed.

(** The seed is still the gradient of [root] when [backward] returns. *)
Lemma backward_seed_kept h root :
  wf_heap h → root < length h →
  ∃ h', backward root h = Some h' ∧ get_grad h' root = Some py_1 ∧
        grad_only h h'.
Proof.
  intros Hwf Hroot.
  destruct (backward_steps h root Hwf Hroot)
    as (st & h1 & h' & _ & Hseed & _ & Hb & _ & Hg1 & Hg & Hfr).
  destruct (lookup_lt_is_Some_2 _ _ Hroot) as [n Hn].
  exists h'. split_and!; [done| |by eapply grad_only_trans].
  unfold get_grad. rewrite Hfr.
  - rewrite (set_grad_lookup _ _ _ _ _ _ Hseed Hn). by rewrite decide_True.
  - apply backward_steps_parents; [done|]. intros v. by apply root_not_parent.
Qed.

(** The traversal of a store that differs in gradients only. *)
Lemma build_topo_same h h' root st :
  grad_only h h' →
  build_topo (S (length h')) h' root st = build_topo (S (length h)) h root st.
Proof.
  intros Hg. rewrite <- (grad_only_length _ _ Hg).
  by apply build_topo_grad_only.
Qed.

Lemma grad_only_get_data h h' r : grad_only h h' → get_data h' r = get_data h r.
Proof.
  intros Hg. unfold get_data. destruct (h !! r) as [n|] eqn:Hr.
  - by destruct (grad_only_lookup _ _ _ _ Hg Hr) as [g ->].
  - apply lookup_ge_None in Hr. rewrite (grad_only_length _ _ Hg) in Hr.
    apply lookup_ge_None in Hr. by rewrite Hr.
Qed.

(** The additions of a closure depend on the values and on the
    gradient of [out] only. *)
Lemma local_derivatives_grad_only c h h' :
  grad_only h h' →
  (∀ out, closure_out c = Some out → get_grad h' out = get_grad h out) →
  local_derivatives c h' = local_derivatives c h.
Proof.
  intros Hg Hout.
  destruct c as [|a b out|a b out|a b out|a k out|a out]; simpl in *; [done|..];
    rewrite ?(Hout out eq_refl), ?(grad_only_get_data _ _ _ Hg); done.
Qed.

End Passes.

Section Doubling.
Implicit Types (h : heap Z).

Lemma wf_closure_out {num} `{PyNum num} (h : heap num) i n :
  wf_heap h → h !! i = Some n →
  ∀ o, closure_out (_backward n) = Some o → o ∉ writes (_backward n).
Proof.
  intros Hwf Hi. destruct (Hwf i n Hi) as [Hlt Hok].
  destruct (_backward n) as [|a b out|a b out|a b out|a k out|a out];
    simpl in *; intros o [= <-]; destruct Hok as [-> Hprev];
    rewrite Hprev in Hlt;
    repeat match goal with
           | Hf : Forall _ (_ :: _) |- _ => apply Forall_cons in Hf as [? Hf]
           end;
    rewrite !not_elem_of_cons; split_and!; try lia; apply not_elem_of_nil.
Qed.

(** Over the integers the additions to a gradient sum up. *)
Lemma bump_all_Z p (cs : list (ref * Z)) (g : Z) :
  bump_all p cs g = (g + bump_all p cs 0)%Z.
Proof.
  unfold bump_all. revert g. induction cs as [|[r x] cs IH]; intros g; simpl.
  - lia.
  - rewrite IH. rewrite (IH (bump p r x 0%Z)).
    unfold bump. case_decide; simpl; lia.
Qed.

End Doubling.

(** ** The order of the calls and the equations they solve *)

Section CallOrder.
Context {num : Type} `{PyNum num}.
Implicit Types (h : heap num) (L : list ref).

(** No object of the list is a parent of itself or of an object that
    comes later in the list. *)
Fixpoint no_late_writer h L : Prop :=
  match L with
  | [] => True
  | v :: rest => (∀ w, w ∈ v :: rest → v ∉ parents h w) ∧ no_late_writer h rest
  end.

Lemma topo_sorted_app_l h T x : topo_sorted h (T ++ [x]) → topo_sorted h T.
Proof.
  intros [Hnd Hord]. split; [by apply NoDup_app in Hnd as (? & _)|].
  intros i v p Hi Hp.
  destruct (Hord i v p (lookup_app_l_Some _ _ _ _ Hi) Hp) as (j & Hj & Hjp).
  exists j. split; [done|]. rewrite lookup_app_l in Hjp; [done|].
  apply lookup_lt_Some in Hi. lia.
Qed.

Lemma reverse_topo_no_late_writer h T :
  topo_sorted h T → no_late_writer h (reverse T).
Proof.
  induction T as [|x T IH] using rev_ind; [done|]. intros Hs.
  rewrite reverse_snoc. split; [|by eapply IH, topo_sorted_app_l].
  destruct Hs as [Hnd Hord]. apply NoDup_app in Hnd as (_ & Hnd & _).
  assert (∀ j, j < length T → (T ++ [x]) !! j ≠ Some x) as Hnx.
  { intros j Hj Hjx. rewrite lookup_app_l in Hjx by done.
    apply list_elem_of_lookup_2 in Hjx. apply (Hnd x Hjx).
    by apply list_elem_of_singleton. }
  intros w Hw Hp.
  assert (∃ i, i ≤ length T ∧ (T ++ [x]) !! i = Some w) as (i & Hi & Hiw).
  { apply elem_of_cons in Hw as [->|Hw].
    - exists (length T). split; [done|]. by apply list_lookup_middle.
    - rewrite elem_of_reverse in Hw. apply list_elem_of_lookup in Hw as [i Hiw].
      exists i. split; [apply lookup_lt_Some in Hiw; lia|].
      by apply lookup_app_l_Some. }
  destruct (Hord i w x Hiw Hp) as (j & Hj & Hjx).
  apply (Hnx j); [lia|done].
Qed.

Lemma no_late_writer_grad_only h h' L :
  grad_only h h' → no_late_writer h L → no_late_writer h' L.
Proof.
  intros Hg. induction L as [|v L IH]; [done|]. intros [Hv HL].
  split; [|by apply IH]. intros w Hw. rewrite (grad_only_parents _ _ _ Hg).
  by apply Hv.
Qed.

(** The additions that a pass makes, one list per called object, and
    all read off the store in which the pass ends. *)
Definition additions_of h h' (v : ref) (cs : list (ref * num)) : Prop :=
  ∃ n, h !! v = Some n ∧ local_derivatives (_backward n) h' = Some cs.

Lemma call_loop_equations h L :
  wf_heap h → Forall (λ v, v < length h) L → no_late_writer h L →
  ∃ h' css,
    for_each call_backward L h = Some h' ∧ grad_only h h' ∧
    Forall2 (additions_of h h') L css ∧
    ∀ p m, h !! p = Some m →
           h' !! p = Some (with_grad (bump_all p (concat css) (grad m)) m).
Proof.
  revert h. induction L as [|v L IH]; intros h Hwf HL Hord.
  - exists h, []. split_and!; [done|apply grad_only_refl|constructor|].
    intros p m ->. by destruct m.
  - apply Forall_cons in HL as [Hv HL]. destruct Hord as [Hnw Hord].
    destruct (lookup_lt_is_Some_2 _ _ Hv) as [n Hn].
    destruct (call_backward_frame h v Hwf Hv) as (h1 & Hcall & Hg1 & Hfr1).
    pose proof (wf_closure_out h v n Hwf Hn) as Hout.
    pose proof Hcall as Htab.
    rewrite (call_backward_table h v n Hn Hout) in Htab.
    destruct (local_derivatives (_backward n) h) as [cs|] eqn:Hcs; [|done].
    simpl in Htab.
    assert (wf_heap h1) as Hwf1 by (by eapply grad_only_wf).
    assert (Forall (λ w, w < length h1) L) as HL1
      by (by rewrite <- (grad_only_length _ _ Hg1)).
    destruct (IH h1 Hwf1 HL1 (no_late_writer_grad_only _ _ _ Hg1 Hord))
      as (h' & css & Hloop & Hg & Hadd & Hlook).
    destruct (call_loop_frame h1 L Hwf1 HL1) as (h'' & Hloop' & _ & Hfr).
    rewrite Hloop in Hloop'. simplify_eq.
    pose proof (grad_only_trans _ _ _ Hg1 Hg) as Hg'.
    assert (h'' !! v = h !! v) as Hvv.
    { rewrite Hfr, Hfr1; [done| |].
      - intros Hw. apply (Hnw v); [by left|].
        by apply (writes_of_parents h v Hwf).
      - intros w Hw Hww. rewrite (grad_only_writes_of _ _ _ Hg1) in Hww.
        apply (Hnw w); [by right|]. by apply (writes_of_parents h w Hwf). }
    exists h'', (cs :: css). split_and!.
    + simpl. by rewrite Hcall.
    + done.
    + constructor.
      * exists n. split; [done|]. rewrite <- Hcs.
        apply local_derivatives_grad_only; [done|].
        intros out Ho. assert (out = v) as ->.
        { destruct (Hwf v n Hn) as [_ Hok].
          destruct (_backward n); simpl in *; simplify_eq; by destruct Hok. }
        unfold get_grad. by rewrite Hvv.
      * eapply Forall2_impl; [exact Hadd|]. intros w cw (n1 & Hn1 & Hcw).
        destruct (grad_only_lookup_r _ _ _ _ Hg1 Hn1) as (n0 & Hn0 & Heq).
        exists n0. split; [done|]. by rewrite Heq in Hcw.
    + intros p m Hp. simpl.
      rewrite (Hlook p _ (add_all_lookup _ _ _ _ _ Htab Hp)). simpl.
      unfold bump_all. by rewrite foldl_app.
Qed.

Lemma for_each_app {S A} (body : A → S → option S) xs ys s :
  for_each body (xs ++ ys) s = for_each body xs s ≫= for_each body ys.
Proof.
  revert s. induction xs as [|x xs IH]; intros s; simpl; [done|].
  destruct (body x s) as [s1|]; simpl; [apply IH|done].
Qed.

Lemma no_late_writer_app_r h L1 L2 :
  no_late_writer h (L1 ++ L2) → no_late_writer h L2.
Proof. induction L1 as [|v L1 IH]; [done|]. intros [_ HL]. by apply IH. Qed.

(** A pass on a well-formed store, step by step: the traversal, the
    seeding, and the loop with the additions it makes. *)
Lemma backward_pass h root :
  wf_heap h → root < length h →
  ∃ st hs h' css,
    build_topo (S (length h)) h root (∅, []) = Some st ∧
    topo_sorted h st.2 ∧
    (∀ x, x ∈ st.2 ↔ reachable h root x) ∧
    last st.2 = Some root ∧
    set_grad root py_1 h = Some hs ∧ grad_only h hs ∧
    for_each call_backward (reverse st.2) hs = Some h' ∧
    backward root h = Some h' ∧
    backward_logged root h = Some (h', reverse st.2) ∧
    no_late_writer hs (reverse st.2) ∧
    Forall2 (additions_of h h') (reverse st.2) css ∧
    ∀ p m, h !! p = Some m →
      h' !! p
      = Some (with_grad
                (bump_all p (concat css)
                   (if decide (p = root) then py_1 else grad m))
                m).
Proof.
  intros Hwf Hroot.
  destruct (build_topo_root h root Hwf Hroot) as (st & Hst & Hs & Hin & Hlast).
  destruct (backward_steps h root Hwf Hroot)
    as (st' & hs & h' & Hst' & Hseed & Hloop & Hb & Hlog & Hg1 & _ & _).
  rewrite Hst in Hst'. simplify_eq.
  assert (no_late_writer hs (reverse st'.2)) as Hord.
  { eapply no_late_writer_grad_only; [done|].
    by apply reverse_topo_no_late_writer. }
  destruct (call_loop_equations hs (reverse st'.2))
    as (h'' & css & Hloop' & Hg & Hadd & Hlook); [| |done|].
  { by eapply grad_only_wf. }
  { apply Forall_forall. intros v Hv. rewrite elem_of_reverse in Hv.
    rewrite <- (grad_only_length _ _ Hg1).
    apply (reachable_valid h root); [done|done|by apply Hin]. }
  rewrite Hloop in Hloop'. simplify_eq.
  exists st', hs, h'', css. split_and!; [done..| |].
  - eapply Forall2_impl; [exact Hadd|]. intros w cw (n1 & Hn1 & Hcw).
    destruct (grad_only_lookup_r _ _ _ _ Hg1 Hn1) as (n0 & Hn0 & Heq).
    exists n0. split; [done|]. by rewrite Heq in Hcw.
  - intros p m Hp.
    rewrite (Hlook p _ (set_grad_lookup _ _ _ _ _ _ Hseed Hp)).
    by case_decide.
Qed.

End CallOrder.

(** ** Example graphs and tests *)

(** The graph of the docstring of [backward]:
    [a = Variable(2); b = Variable(3); c = a * b; d = c.relu();
     e = c ** 2; out = d + e]. *)
Definition diamond : heap Z * ref :=
  Eval vm_compute in
  default ([], 0)
    (let '(h, a) := Variable_init 2%Z "a" 0%Z "" [] [] in
     let '(h, b) := Variable_init 3%Z "b" 0%Z "" [] h in
     '(h, c) ← __mul__ a (Obj b) h;
     '(h, d) ← relu c h;
     '(h, e) ← __pow__ c 2%Z h;
     __add__ d (Obj e) h).

(** The graph of the fan-out test, before any backward pass:
    [a = Variable(3); b = Variable(4); c = a + b; d = c + a]. *)
Definition fan_out_graph : heap Z * ref :=
  Eval vm_compute in
  default ([], 0)
    (let '(h, a) := Variable_init 3%Z "" 0%Z "" [] [] in
     let '(h, b) := Variable_init 4%Z "" 0%Z "" [] h in
     '(h, c) ← __add__ a (Obj b) h;
     __add__ c (Obj a) h).

(** The test of the additive fan-out:
    [a = Variable(x); b = Variable(y); c = a + b; d = c + a;
     d.backward()]. *)
Definition fan_out_test (x y : Z) : option (heap Z) :=
  let '(h, a) := Variable_init x "" 0%Z "" [] [] in
  let '(h, b) := Variable_init y "" 0%Z "" [] h in
  '(h, c) ← __add__ a (Obj b) h;
  '(h, d) ← __add__ c (Obj a) h;
  backward d h.

(** The test of the product rule:
    [a = Variable(3); b = Variable(4); c = a * b; c.backward()]. *)
Definition product_rule_test : option (heap Z) :=
  let '(h, a) := Variable_init 3%Z "" 0%Z "" [] [] in
  let '(h, b) := Variable_init 4%Z "" 0%Z "" [] h in
  '(h, c) ← __mul__ a (Obj b) h;
  backward c h.

(** The test of the power rule:
    [x = Variable(2); y = x ** 3; y.backward()]. *)
Definition power_rule_test : option (heap Z) :=
  let '(h, x) := Variable_init 2%Z "" 0%Z "" [] [] in
  '(h, y) ← __pow__ x 3%Z h;
  backward y h.

(** The test of the kink of relu:
    [x = Variable(v); y = x.relu(); y.backward()]. *)
Definition relu_test (v : Z) : option (heap Z) :=
  let '(h, x) := Variable_init v "" 0%Z "" [] [] in
  '(h, y) ← relu x h;
  backward y h.

(** ** The claims *)

(** C1: during one call of [backward(root)] on a well-formed store,
    every object reachable from [root] through [_prev] occurs exactly
    once in the topological order and has its [_backward] called
    exactly once by the final loop, whatever the sharing in the graph;
    no other object occurs or is called.  Each call runs the rule
    stored on the object: the calls are those of the reversed order,
    each makes the additions that the table of local derivatives gives
    for the closure of its object, and the gradient of every object
    at the end of the pass is its gradient at the start (1 for the
    root) with the additions of every call made exactly once. *)
Theorem backward_calls_each_rule_once {num} `{PyNum num}
    (h : heap num) (root : ref) :
  wf_heap h → root < length h →
  ∃ st h' calls css,
    build_topo (S (length h)) h root (∅, []) = Some st ∧
    backward_logged root h = Some (h', calls) ∧
    backward root h = Some h' ∧
    calls = reverse st.2 ∧ NoDup st.2 ∧ NoDup calls ∧
    (∀ v, reachable h root v →
          count_occ Nat.eq_dec st.2 v = 1 ∧ count_occ Nat.eq_dec calls v = 1) ∧
    (∀ v, ¬ reachable h root v →
          count_occ Nat.eq_dec st.2 v = 0 ∧ count_occ Nat.eq_dec calls v = 0) ∧
    Forall2 (additions_of h h') calls css ∧
    (∀ p m, h !! p = Some m →
       h' !! p
       = Some (with_grad
                 (bump_all p (concat css)
                    (if decide (p = root) then py_1 else grad m))
                 m)).
Proof.
  intros Hwf Hroot.
  destruct (backward_pass h root Hwf Hroot)
    as (st & hs & h' & css & Hst & [Hnd _] & Hin & _ & _ & _ & _ & Hb & Hlog
        & _ & Hadd & Hlook).
  assert (NoDup (reverse st.2)) as Hndr by (by rewrite reverse_Permutation).
  exists st, h', (reverse st.2), css. split_and!; [done..| | |done|done].
  - intros v Hv. split.
    + rewrite count_occ_NoDup by done.
      rewrite decide_True; [done|by apply Hin].
    + rewrite count_occ_NoDup by done.
      rewrite decide_True; [done|]. rewrite elem_of_reverse. by apply Hin.
  - intros v Hv. split.
    + rewrite count_occ_NoDup by done.
      rewrite decide_False; [done|]. by intros ?%Hin.
    + rewrite count_occ_NoDup by done.
      rewrite decide_False; [done|]. rewrite elem_of_reverse. by intros ?%Hin.
Qed.

Lemma backward_calls_each_rule_once_diamond :
  ∃ st h' calls css,
    build_topo (S (length diamond.1)) diamond.1 diamond.2 (∅, []) = Some st ∧
    backward_logged diamond.2 diamond.1 = Some (h', calls) ∧
    backward diamond.2 diamond.1 = Some h' ∧
    calls = reverse st.2 ∧ NoDup st.2 ∧ NoDup calls ∧
    (∀ v, reachable diamond.1 diamond.2 v →
          count_occ Nat.eq_dec st.2 v = 1 ∧ count_occ Nat.eq_dec calls v = 1) ∧
    (∀ v, ¬ reachable diamond.1 diamond.2 v →
          count_occ Nat.eq_dec st.2 v = 0 ∧ count_occ Nat.eq_dec calls v = 0) ∧
    Forall2 (additions_of diamond.1 h') calls css ∧
    (∀ p m, diamond.1 !! p = Some m →
       h' !! p
       = Some (with_grad
                 (bump_all p (concat css)
                    (if decide (p = diamond.2) then 1%Z else grad m))
                 m)) ∧
    calls = [5; 4; 3; 2; 1; 0] ∧
    grad <$> h' = [39; 26; 13; 1; 1; 1]%Z.
Proof.
  destruct (backward_calls_each_rule_once diamond.1 diamond.2)
    as (st & h' & calls & css & H1 & H2 & H3 & H4 & H5 & H6 & H7 & H8 & H9
        & H10).
  - apply wf_heapb_correct. vm_compute. reflexivity.
  - vm_compute. lia.
  - pose proof H2 as Hc. vm_compute in Hc. injection Hc as Hh Hcalls.
    exists st, h', calls, css.
    split_and!; [exact H1|exact H2|exact H3|exact H4|exact H5|exact H6
                |exact H7|exact H8|exact H9|exact H10| |].
    + by rewrite <- Hcalls.
    + by rewrite <- Hh.
Defined.

(** Two objects equal in every attribute, and their sum:
    [a = Variable(1); b = Variable(1); c = a + b]. *)
Definition twins : heap Z * ref :=
  Eval vm_compute in
  default ([], 0)
    (let '(h, a) := Variable_init 1%Z "" 0%Z "" [] [] in
     let '(h, b) := Variable_init 1%Z "" 0%Z "" [] h in
     __add__ a (Obj b) h).

(** C2: the topological order built for [root] on a well-formed store
    holds the objects reachable from [root], all of them, nothing
    else, and none twice; every occurrence of a parent of an object
    stands at a strictly smaller position than the object, and there
    is one; the first element has no parents and the last one is
    [root]; and objects are told apart by identity, not by value: two
    distinct reachable objects stand at two distinct positions, each
    at one position only, whatever their values, as for the two
    objects of [twins], which are equal in every attribute. *)
Theorem build_topo_order :
  (∀ num (Hnum : PyNum num) (h : heap num) (root : ref),
     wf_heap h → root < length h →
     ∃ st,
       build_topo (S (length h)) h root (∅, []) = Some st ∧
       NoDup st.2 ∧
       (∀ v, v ∈ st.2 ↔ reachable h root v) ∧
       (∀ i v p, st.2 !! i = Some v → p ∈ parents h v →
                 (∃ j, j < i ∧ st.2 !! j = Some p) ∧
                 (∀ j, st.2 !! j = Some p → j < i)) ∧
       (∃ leaf, head st.2 = Some leaf ∧ parents h leaf = []) ∧
       last st.2 = Some root ∧
       (∀ x y, x ≠ y → reachable h root x → reachable h root y →
               ∃ i j, i ≠ j ∧
                      (∀ k, st.2 !! k = Some x ↔ k = i) ∧
                      (∀ k, st.2 !! k = Some y ↔ k = j))) ∧
  twins.1 !! 0 = twins.1 !! 1 ∧
  snd <$> build_topo (S (length twins.1)) twins.1 twins.2 (∅, [])
  = Some [0; 1; 2].
Proof.
  split; [|by vm_compute].
  intros num Hnum h root Hwf Hroot.
  destruct (build_topo_root h root Hwf Hroot)
    as (st & Hst & [Hnd Hord] & Hin & Hlast).
  exists st. split_and!; [done|done|done| | |done|].
  - intros i v p Hi Hp. destruct (Hord i v p Hi Hp) as (j & Hj & Hjp).
    split; [by eauto|]. intros j' Hj'.
    by rewrite (NoDup_lookup _ _ _ _ Hnd Hj' Hjp).
  - destruct st.2 as [|leaf L] eqn:HL; [done|].
    exists leaf. split; [done|]. apply elem_of_nil_inv. intros p Hp.
    destruct (Hord 0 leaf p) as (j & Hj & _); [done..|lia].
  - intros x y Hne [i Hi]%Hin%list_elem_of_lookup
      [j Hj]%Hin%list_elem_of_lookup.
    exists i, j. split_and!.
    + intros ->. by simplify_eq.
    + intros k. split; [|by intros ->]. intros Hk.
      by apply (NoDup_lookup _ _ _ _ Hnd Hk Hi).
    + intros k. split; [|by intros ->]. intros Hk.
      by apply (NoDup_lookup _ _ _ _ Hnd Hk Hj).
Qed.

Lemma build_topo_order_diamond :
  ∃ st,
    build_topo (S (length diamond.1)) diamond.1 diamond.2 (∅, []) = Some st ∧
    NoDup st.2 ∧
    (∀ v, v ∈ st.2 ↔ reachable diamond.1 diamond.2 v) ∧
    (∀ i v p, st.2 !! i = Some v → p ∈ parents diamond.1 v →
              (∃ j, j < i ∧ st.2 !! j = Some p) ∧
              (∀ j, st.2 !! j = Some p → j < i)) ∧
    (∃ leaf, head st.2 = Some leaf ∧ parents diamond.1 leaf = []) ∧
    last st.2 = Some diamond.2 ∧
    (∀ x y, x ≠ y → reachable diamond.1 diamond.2 x →
            reachable diamond.1 diamond.2 y →
            ∃ i j, i ≠ j ∧
                   (∀ k, st.2 !! k = Some x ↔ k = i) ∧
                   (∀ k, st.2 !! k = Some y ↔ k = j)) ∧
    st.2 = [0; 1; 2; 3; 4; 5].
Proof.
  destruct (proj1 build_topo_order Z _ diamond.1 diamond.2)
    as (st & H1 & H2 & H3 & H4 & H5 & H6 & H7).
  - apply wf_heapb_correct. vm_compute. reflexivity.
  - vm_compute. lia.
  - pose proof H1 as Hc. vm_compute in Hc. injection Hc as Hc.
    exists st. split_and!; [exact H1|exact H2|exact H3|exact H4|exact H5
                           |exact H6|exact H7|].
    by rewrite <- Hc.
Defined.

(** The claim C3 as it stands is refuted by the fan-out graph: after
    one pass the gradients of [a, b, c, d] are [2, 1, 1, 1], after a
    second pass they are [5, 3, 2, 1], not [4, 2, 2, 2]. *)
Lemma second_pass_does_not_double :
  ∃ h1 h2,
    backward fan_out_graph.2 fan_out_graph.1 = Some h1 ∧
    backward fan_out_graph.2 h1 = Some h2 ∧
    grad <$> h1 = [2; 1; 1; 1]%Z ∧
    grad <$> h2 = [5; 3; 2; 1]%Z ∧
    ¬ (∀ v, reachable fan_out_graph.1 fan_out_graph.2 v →
            get_grad h2 v = Z.mul 2 <$> get_grad h1 v).
Proof.
  eexists _, _. split_and!; [by vm_compute..|].
  intros Hall. specialize (Hall 3 (reach_root _ _)). by vm_compute in Hall.
Qed.

(** C3, amended: two calls of [backward] on the same root of a
    well-formed store, with no [zero_grad] in between, both return;
    the gradient of the root is 1 after each of them, since the seed
    overwrites it; and every other object that started at gradient 0
    and that has the root as its only reachable consumer ends with
    exactly twice the gradient it has after the first call. *)
Theorem two_passes_double_next_to_root (h : heap Z) (root : ref) :
  wf_heap h → root < length h →
  ∃ h1 h2,
    backward root h = Some h1 ∧ backward root h1 = Some h2 ∧
    get_grad h1 root = Some 1%Z ∧ get_grad h2 root = Some 1%Z ∧
    ∀ p, p ≠ root →
         (∀ v, reachable h root v → p ∈ parents h v → v = root) →
         get_grad h p = Some 0%Z →
         ∃ g, get_grad h1 p = Some g ∧ get_grad h2 p = Some (2 * g)%Z.
Proof.
  intros Hwf Hroot.
  destruct (backward_root_first h root Hwf Hroot)
    as (T & hs & ha & h1 & [vis Hst] & Hseed & Hcall & _ & Hb & Hg1 & Hga & Hg
        & HT & Hfr).
  pose proof (grad_only_trans _ _ _ Hg1 (grad_only_trans _ _ _ Hga Hg)) as Hg01.
  assert (wf_heap h1) as Hwf1 by (by eapply grad_only_wf).
  assert (root < length h1) as Hroot1
    by (by rewrite <- (grad_only_length _ _ Hg01)).
  destruct (backward_root_first h1 root Hwf1 Hroot1)
    as (T2 & hs2 & ha2 & h2 & [vis2 Hst2] & Hseed2 & Hcall2 & _ & Hb2 & Hg12
        & Hga2 & _ & _ & Hfr2).
  rewrite (build_topo_same _ _ _ _ Hg01), Hst in Hst2.
  assert (T2 = T) as ->.
  { injection Hst2 as _ HT2. by apply app_inj_tail in HT2 as [-> _]. }
  destruct (backward_seed_kept h root Hwf Hroot) as (h1' & Hb' & Hr1 & _).
  destruct (backward_seed_kept h1 root Hwf1 Hroot1) as (h2' & Hb2' & Hr2 & _).
  rewrite Hb in Hb'. rewrite Hb2 in Hb2'. simplify_eq.
  exists h1', h2'. split_and!; [done..|].
  intros p Hne Honly Hp0.
  assert (∀ v, v ∈ T → p ∉ writes_of h v) as Hnw.
  { intros v [Hv Hvr]%HT Hw. apply Hvr, Honly; [done|].
    by apply (writes_of_parents h v Hwf). }
  unfold get_grad in Hp0 |- *.
  destruct (h !! p) as [m|] eqn:Hm; [|done]. simpl in Hp0.
  injection Hp0 as Hp0.
  destruct (lookup_lt_is_Some_2 _ _ Hroot) as [n Hn].
  pose proof (set_grad_lookup _ _ _ _ _ _ Hseed Hm) as Hsp.
  pose proof (set_grad_lookup _ _ _ _ _ _ Hseed Hn) as Hsr.
  rewrite decide_False in Hsp by done. rewrite decide_True in Hsr by done.
  pose proof (wf_closure_out h root n Hwf Hn) as Hout.
  rewrite (call_backward_table hs root _ Hsr Hout) in Hcall. simpl in Hcall.
  destruct (local_derivatives (_backward n) hs) as [cs|] eqn:Hcs; [|done].
  simpl in Hcall.
  pose proof (add_all_lookup _ _ _ _ _ Hcall Hsp) as Hap.
  rewrite Hfr, Hap by done. simpl.
  eexists. split; [done|].
  rewrite Hfr2.
  2:{ intros v Hv. rewrite (grad_only_writes_of _ _ _ Hg01). by apply Hnw. }
  assert (h1' !! p = Some (with_grad (bump_all p cs (grad m)) m)) as Hp1
    by (by rewrite Hfr).
  assert (h1' !! root = Some (with_grad 1%Z n)) as Hn1.
  { destruct (grad_only_lookup _ _ _ _ Hg01 Hn) as [g Hn1]. rewrite Hn1.
    unfold get_grad in Hr1. rewrite Hn1 in Hr1. by simplify_eq/=. }
  pose proof (set_grad_lookup _ _ _ _ _ _ Hseed2 Hp1) as Hsp2.
  pose proof (set_grad_lookup _ _ _ _ _ _ Hseed2 Hn1) as Hsr2.
  rewrite decide_False in Hsp2 by done. rewrite decide_True in Hsr2 by done.
  rewrite (call_backward_table hs2 root _ Hsr2 Hout) in Hcall2.
  simpl in Hcall2.
  rewrite (local_derivatives_grad_only _ hs hs2) in Hcall2.
  - rewrite Hcs in Hcall2. simpl in Hcall2.
    rewrite (add_all_lookup _ _ _ _ _ Hcall2 Hsp2). simpl. f_equal.
    rewrite Hp0. rewrite (bump_all_Z p cs (bump_all p cs 0%Z)). lia.
  - eapply grad_only_trans; [by apply grad_only_sym|].
    by eapply grad_only_trans.
  - intros out Hcout. specialize (Hout out Hcout).
    assert (out = root) as ->.
    { destruct (Hwf root n Hn) as [_ Hok].
      destruct (_backward n); simpl in *; simplify_eq; by destruct Hok. }
    unfold get_grad. by rewrite Hsr, Hsr2.
Qed.

Lemma two_passes_double_next_to_root_witness :
  ∃ h1 h2 g,
    backward fan_out_graph.2 fan_out_graph.1 = Some h1 ∧
    backward fan_out_graph.2 h1 = Some h2 ∧
    get_grad h1 fan_out_graph.2 = Some 1%Z ∧
    get_grad h2 fan_out_graph.2 = Some 1%Z ∧
    get_grad h1 2 = Some g ∧ get_grad h2 2 = Some (2 * g)%Z.
Proof.
  destruct (two_passes_double_next_to_root fan_out_graph.1 fan_out_graph.2)
    as (h1 & h2 & H1 & H2 & H3 & H4 & H5).
  - apply wf_heapb_correct. vm_compute. reflexivity.
  - vm_compute. lia.
  - destruct (H5 2) as (g & H6 & H7).
    + vm_compute. lia.
    + intros v _ Hp.
      do 4 (destruct v as [|v];
            [first [reflexivity
                   |exfalso; vm_compute in Hp;
                    repeat (apply elem_of_cons in Hp as [Hp|Hp]; [lia|]);
                    by apply elem_of_nil in Hp]|]).
      exfalso. vm_compute in Hp. by apply elem_of_nil in Hp.
    + reflexivity.
    + exists h1, h2, g. split_and!; assumption.
Defined.

(** C4: [a.tanh()] allocates one object [out], whose value is
    [np.tanh(a.data)], whose only parent is [a] and whose [_backward]
    is the default [lambda: None].  A call of [out._backward()] leaves
    every store unchanged; so a backward pass from any root, in any
    well-formed store that holds [out], leaves [a] as it was whenever
    [out] is the only reachable object that has [a] as a parent:
    nothing reaches [a.grad] through the tanh object. *)
Theorem tanh_no_backward {num} `{PyNum num} (np_tanh : num → num)
    (h : heap num) (a : ref) (na : variable num) :
  h !! a = Some na →
  ∃ n, tanh np_tanh a h = Some (h ++ [n], length h) ∧
       data n = np_tanh (data na) ∧
       grad n = py_0 ∧ _prev n = [a] ∧ _backward n = lambda_None ∧
       (∀ (σ : heap num) g,
          σ !! length h = Some (with_grad g n) →
          call_backward (length h) σ = Some σ) ∧
       (∀ (σ : heap num) g root,
          wf_heap σ → root < length σ → root ≠ a →
          σ !! length h = Some (with_grad g n) →
          (∀ v, reachable σ root v → a ∈ parents σ v → v = length h) →
          ∃ σ', backward root σ = Some σ' ∧ σ' !! a = σ !! a).
Proof.
  intros Ha. eexists. split_and!.
  - by apply tanh_new.
  - done.
  - done.
  - done.
  - done.
  - intros σ g Hσ. unfold call_backward. by rewrite Hσ.
  - intros σ g root Hwf Hroot Hne Hσ Honly.
    destruct (backward_steps σ root Hwf Hroot)
      as (st & h1 & σ' & _ & Hseed & _ & Hb & _ & Hg1 & _ & Hfr).
    exists σ'. split; [done|]. rewrite Hfr.
    + destruct (σ !! a) as [m|] eqn:Hm.
      * rewrite (set_grad_lookup _ _ _ _ _ _ Hseed Hm).
        by rewrite decide_False by done.
      * apply lookup_ge_None in Hm. apply lookup_ge_None.
        by rewrite <- (grad_only_length _ _ Hg1).
    + intros v Hv Hw. destruct (decide (v = length h)) as [->|Hv'].
      * unfold writes_of in Hw. rewrite Hσ in Hw. simpl in Hw.
        by apply elem_of_nil in Hw.
      * apply Hv', Honly; [done|]. by apply (writes_of_parents σ v Hwf).
Qed.

Lemma tanh_no_backward_witness :
  ∃ n σ',
    tanh (λ _, 0%Z) 0 (Variable_init 0%Z "" 5%Z "" [] []).1
    = Some ((Variable_init 0%Z "" 5%Z "" [] []).1 ++ [n], 1) ∧
    call_backward 1 ((Variable_init 0%Z "" 5%Z "" [] []).1 ++ [n])
    = Some ((Variable_init 0%Z "" 5%Z "" [] []).1 ++ [n]) ∧
    backward 1 ((Variable_init 0%Z "" 5%Z "" [] []).1 ++ [n]) = Some σ' ∧
    get_grad σ' 0 = Some 5%Z.
Proof.
  destruct (tanh_no_backward (λ _, 0%Z) (Variable_init 0%Z "" 5%Z "" [] []).1
              0 _ eq_refl) as (n & Hn & _ & _ & _ & _ & Hcall & Hpass).
  assert (n = mk_variable 0%Z "" 0%Z [0] "tanh" lambda_None) as ->.
  { vm_compute in Hn. congruence. }
  destruct (Hpass ((Variable_init 0%Z "" 5%Z "" [] []).1
                     ++ [mk_variable 0%Z "" 0%Z [0] "tanh" lambda_None])
              0%Z 1) as (σ' & Hσ' & Ha).
  - apply wf_heapb_correct. vm_compute. reflexivity.
  - vm_compute. lia.
  - lia.
  - reflexivity.
  - intros v _ Hp.
    do 2 (destruct v as [|v];
          [first [reflexivity
                 |exfalso; vm_compute in Hp;
                  repeat (apply elem_of_cons in Hp as [Hp|Hp]; [lia|]);
                  by apply elem_of_nil in Hp]|]).
    exfalso. vm_compute in Hp. by apply elem_of_nil in Hp.
  - eexists _, σ'. split_and!; [exact Hn|by apply (Hcall _ 0%Z)|exact Hσ'|].
    unfold get_grad. by rewrite Ha.
Defined.

(** C5: [a + b] allocates one object [out] with parents [(a, b)]; a
    later call of [out._backward()], at any gradient [g] of [out],
    makes [a.grad += g] and then [b.grad += g], the same [g] for both,
    and changes nothing else.  For two new objects [a] and [b] of any
    values, [c = a + b], [d = c + a] and [d.backward()] leave the
    gradients [a.grad == 2], [b.grad == 1], [c.grad == 1],
    [d.grad == 1]. *)
Theorem add_fan_out :
  (∀ num (Hnum : PyNum num) (h : heap num) a b na nb,
     h !! a = Some na → h !! b = Some nb →
     ∃ n, __add__ a (Obj b) h = Some (h ++ [n], length h) ∧
          data n = py_add (data na) (data nb) ∧
          grad n = py_0 ∧ _prev n = [a; b] ∧
          ∀ (σ : heap num) ga gb g,
            σ !! a = Some (with_grad ga na) →
            σ !! b = Some (with_grad gb nb) →
            σ !! length h = Some (with_grad g n) →
            ∃ σ', call_backward (length h) σ = Some σ' ∧
                  ∀ x m, σ !! x = Some m →
                    σ' !! x
                    = Some (with_grad (bump x b g (bump x a g (grad m))) m)) ∧
  ∀ x y : Z,
    fmap (M := list) grad <$> fan_out_test x y = Some [2; 1; 1; 1]%Z.
Proof.
  split; [|by vm_compute].
  intros num Hnum h a b na nb Ha Hb. eexists. split_and!.
  - by apply (add_lifted h a (Obj b) h b na nb).
  - done.
  - done.
  - done.
  - intros σ ga gb g Hσa Hσb Hσo. simpl.
    pose proof (lookup_lt_Some _ _ _ Ha). pose proof (lookup_lt_Some _ _ _ Hb).
    pose proof (lookup_lt_Some _ _ _ Hσa). pose proof (lookup_lt_Some _ _ _ Hσb).
    eapply (call_table_lookup σ (length h) _ [(a, g); (b, g)] Hσo).
    + simpl. intros o [= <-]. rewrite !not_elem_of_cons.
      split_and!; [lia|lia|apply not_elem_of_nil].
    + simpl. unfold get_grad. by rewrite Hσo.
    + repeat constructor; simpl; lia.
Qed.

Lemma add_fan_out_witness :
  ∃ n σ',
    __add__ 0 (Obj 1) (Variable_init 4%Z "" 0%Z "" []
                 (Variable_init 3%Z "" 0%Z "" [] []).1).1
    = Some ((Variable_init 4%Z "" 0%Z "" []
                 (Variable_init 3%Z "" 0%Z "" [] []).1).1 ++ [n], 2) ∧
    data n = 7%Z ∧
    call_backward 2 ((Variable_init 4%Z "" 0%Z "" []
                 (Variable_init 3%Z "" 0%Z "" [] []).1).1 ++ [with_grad 1%Z n]) = Some σ'.
Proof.
  destruct (proj1 add_fan_out Z _ (Variable_init 4%Z "" 0%Z "" []
                 (Variable_init 3%Z "" 0%Z "" [] []).1).1
              0 1 _ _ eq_refl eq_refl) as (n & Hn & Hd & _ & _ & Hcall).
  destruct (Hcall ((Variable_init 4%Z "" 0%Z "" []
                 (Variable_init 3%Z "" 0%Z "" [] []).1).1 ++ [with_grad 1%Z n])
              0%Z 0%Z 1%Z eq_refl eq_refl eq_refl) as (σ' & Hσ' & _).
  exists n, σ'. split_and!; [exact Hn|exact Hd|exact Hσ'].
Defined.

(** C6: [a * b] allocates one object [out], whose value is the product
    of the values and whose parents are [(a, b)]; a later call of
    [out._backward()], at any gradients [g] of [out], makes
    [a.grad += g * b.data] and then [b.grad += g * a.data] and changes
    nothing else.  With the values 3 and 4 and zero gradients,
    [backward] of the product leaves the gradients 4, 3 and 1. *)
Theorem mul_product_rule :
  (∀ num (Hnum : PyNum num) (h : heap num) a b na nb,
     h !! a = Some na → h !! b = Some nb →
     ∃ n, __mul__ a (Obj b) h = Some (h ++ [n], length h) ∧
          data n = py_mul (data na) (data nb) ∧
          grad n = py_0 ∧ _prev n = [a; b] ∧
          ∀ (σ : heap num) ga gb g,
            σ !! a = Some (with_grad ga na) →
            σ !! b = Some (with_grad gb nb) →
            σ !! length h = Some (with_grad g n) →
            ∃ σ', call_backward (length h) σ = Some σ' ∧
                  ∀ x m, σ !! x = Some m →
                    σ' !! x
                    = Some (with_grad
                              (bump x b (py_mul g (data na))
                                 (bump x a (py_mul g (data nb)) (grad m)))
                              m)) ∧
  fmap (M := list) grad <$> product_rule_test = Some [4; 3; 1]%Z.
Proof.
  split; [|by vm_compute].
  intros num Hnum h a b na nb Ha Hb. eexists. split_and!.
  - by apply (mul_lifted h a (Obj b) h b na nb).
  - done.
  - done.
  - done.
  - intros σ ga gb g Hσa Hσb Hσo. simpl.
    pose proof (lookup_lt_Some _ _ _ Ha). pose proof (lookup_lt_Some _ _ _ Hb).
    pose proof (lookup_lt_Some _ _ _ Hσa). pose proof (lookup_lt_Some _ _ _ Hσb).
    eapply (call_table_lookup σ (length h) _
              [(a, py_mul g (data nb)); (b, py_mul g (data na))] Hσo).
    + simpl. intros o [= <-]. rewrite !not_elem_of_cons.
      split_and!; [lia|lia|apply not_elem_of_nil].
    + simpl. unfold get_grad, get_data. by rewrite Hσo, Hσa, Hσb.
    + repeat constructor; simpl; lia.
Qed.

Lemma mul_product_rule_witness :
  ∃ n σ',
    __mul__ 0 (Obj 1) (Variable_init 4%Z "" 0%Z "" []
                 (Variable_init 3%Z "" 0%Z "" [] []).1).1
    = Some ((Variable_init 4%Z "" 0%Z "" []
                 (Variable_init 3%Z "" 0%Z "" [] []).1).1 ++ [n], 2) ∧
    data n = 12%Z ∧
    call_backward 2 ((Variable_init 4%Z "" 0%Z "" []
                 (Variable_init 3%Z "" 0%Z "" [] []).1).1 ++ [with_grad 1%Z n]) = Some σ'.
Proof.
  destruct (proj1 mul_product_rule Z _ (Variable_init 4%Z "" 0%Z "" []
                 (Variable_init 3%Z "" 0%Z "" [] []).1).1
              0 1 _ _ eq_refl eq_refl) as (n & Hn & Hd & _ & _ & Hcall).
  destruct (Hcall ((Variable_init 4%Z "" 0%Z "" []
                 (Variable_init 3%Z "" 0%Z "" [] []).1).1 ++ [with_grad 1%Z n])
              0%Z 0%Z 1%Z eq_refl eq_refl eq_refl) as (σ' & Hσ' & _).
  exists n, σ'. split_and!; [exact Hn|exact Hd|exact Hσ'].
Defined.

(** C7: [a ** k] takes the exponent as a number, not as an object: it
    allocates the one object [out], whose value is [a.data ** k] and
    whose only parent is [a]; a later call of [out._backward()], at any
    gradient [g] of [out], makes [a.grad += g * k * a.data ** (k - 1)]
    and changes nothing else.  With the value 2, the exponent 3 and
    zero gradients, [backward] of the power leaves [x.grad == 12]. *)
Theorem pow_power_rule :
  (∀ num (Hnum : PyNum num) (h : heap num) a (k : num) na,
     h !! a = Some na →
     ∃ n, __pow__ a k h = Some (h ++ [n], length h) ∧
          data n = py_pow (data na) k ∧
          grad n = py_0 ∧ _prev n = [a] ∧
          ∀ (σ : heap num) ga g,
            σ !! a = Some (with_grad ga na) →
            σ !! length h = Some (with_grad g n) →
            ∃ σ', call_backward (length h) σ = Some σ' ∧
                  ∀ x m, σ !! x = Some m →
                    σ' !! x
                    = Some (with_grad
                              (bump x a
                                 (py_mul (py_mul g k)
                                    (py_pow (data na) (py_sub k py_1)))
                                 (grad m))
                              m)) ∧
  fmap (M := list) grad <$> power_rule_test = Some [12; 1]%Z.
Proof.
  split; [|by vm_compute].
  intros num Hnum h a k na Ha. eexists. split_and!.
  - by apply pow_new.
  - done.
  - done.
  - done.
  - intros σ ga g Hσa Hσo. simpl.
    pose proof (lookup_lt_Some _ _ _ Ha). pose proof (lookup_lt_Some _ _ _ Hσa).
    eapply (call_table_lookup σ (length h) _
              [(a, py_mul (py_mul g k) (py_pow (data na) (py_sub k py_1)))]
              Hσo).
    + simpl. intros o [= <-]. rewrite !not_elem_of_cons.
      split_and!; [lia|apply not_elem_of_nil].
    + simpl. unfold get_grad, get_data. by rewrite Hσo, Hσa.
    + repeat constructor; simpl; lia.
Qed.

Lemma pow_power_rule_witness :
  ∃ n σ',
    __pow__ 0 3%Z (Variable_init 2%Z "" 0%Z "" [] []).1 = Some ((Variable_init 2%Z "" 0%Z "" [] []).1 ++ [n], 1) ∧
    data n = 8%Z ∧
    call_backward 1 ((Variable_init 2%Z "" 0%Z "" [] []).1 ++ [with_grad 1%Z n]) = Some σ'.
Proof.
  destruct (proj1 pow_power_rule Z _ (Variable_init 2%Z "" 0%Z "" [] []).1
              0 3%Z _ eq_refl) as (n & Hn & Hd & _ & _ & Hcall).
  destruct (Hcall ((Variable_init 2%Z "" 0%Z "" [] []).1 ++ [with_grad 1%Z n])
              0%Z 1%Z eq_refl eq_refl) as (σ' & Hσ' & _).
  exists n, σ'. split_and!; [exact Hn|exact Hd|exact Hσ'].
Defined.

(** The rule of relu, over any numbers. *)
Lemma relu_rule {num} `{PyNum num} (h : heap num) a na :
  h !! a = Some na →
  ∃ n, relu a h = Some (h ++ [n], length h) ∧
       data n = py_max py_0 (data na) ∧
       grad n = py_0 ∧ _prev n = [a] ∧
       ∀ (σ : heap num) ga g,
         σ !! a = Some (with_grad ga na) →
         σ !! length h = Some (with_grad g n) →
         ∃ σ', call_backward (length h) σ = Some σ' ∧
               ∀ x m, σ !! x = Some m →
                 σ' !! x
                 = Some (with_grad
                           (bump x a
                              (if py_le (data na) py_0 then py_0 else g)
                              (grad m))
                           m).
Proof.
  intros Ha. eexists. split_and!.
  - by apply relu_new.
  - done.
  - done.
  - done.
  - intros σ ga g Hσa Hσo. simpl.
    pose proof (lookup_lt_Some _ _ _ Ha). pose proof (lookup_lt_Some _ _ _ Hσa).
    eapply (call_table_lookup σ (length h) _
              [(a, if py_le (data na) py_0 then py_0 else g)] Hσo).
    + simpl. intros o [= <-]. rewrite !not_elem_of_cons.
      split_and!; [lia|apply not_elem_of_nil].
    + simpl. unfold get_grad, get_data. rewrite Hσo, Hσa. simpl.
      by destruct (py_le (data na) py_0).
    + repeat constructor; simpl; lia.
Qed.

(** C8: [a.relu()] allocates one object [out], whose value is
    [max(0, a.data)], that is [a.data] when [a.data > 0] and 0
    otherwise, and whose only parent is [a]; a later call of
    [out._backward()], at any gradient [g] of [out], makes
    [a.grad += 0] when [a.data <= 0] and [a.grad += g] otherwise, and
    changes nothing else; over the integers the value is the larger of
    0 and [a.data], and the call changes nothing at all when
    [a.data <= 0].  From zero gradients, [relu] and [backward] leave
    the values -5 and 0 with [x.grad == 0], 0 and 0 with
    [x.grad == 0], and 5 and 5 with [x.grad == 1]. *)
Theorem relu_kink :
  (∀ num (Hnum : PyNum num) (h : heap num) a na,
     h !! a = Some na →
     ∃ n, relu a h = Some (h ++ [n], length h) ∧
          data n = py_max py_0 (data na) ∧
          grad n = py_0 ∧ _prev n = [a] ∧
          ∀ (σ : heap num) ga g,
            σ !! a = Some (with_grad ga na) →
            σ !! length h = Some (with_grad g n) →
            ∃ σ', call_backward (length h) σ = Some σ' ∧
                  ∀ x m, σ !! x = Some m →
                    σ' !! x
                    = Some (with_grad
                              (bump x a
                                 (if py_le (data na) py_0 then py_0 else g)
                                 (grad m))
                              m)) ∧
  (∀ (h : heap Z) a na n (σ : heap Z) ga g,
     h !! a = Some na → (data na ≤ 0)%Z →
     relu a h = Some (h ++ [n], length h) →
     σ !! a = Some (with_grad ga na) →
     σ !! length h = Some (with_grad g n) →
     ∃ σ', call_backward (length h) σ = Some σ' ∧ ∀ x, σ' !! x = σ !! x) ∧
  fmap (M := list) grad <$> relu_test (-5) = Some [0; 1]%Z ∧
  fmap (M := list) grad <$> relu_test 0 = Some [0; 1]%Z ∧
  fmap (M := list) grad <$> relu_test 5 = Some [1; 1]%Z ∧
  (∀ num (Hnum : PyNum num) (h : heap num) a na,
     h !! a = Some na →
     ∃ n, relu a h = Some (h ++ [n], length h) ∧
          data n = if py_gt (data na) py_0 then data na else py_0) ∧
  (∀ (h : heap Z) a na,
     h !! a = Some na →
     ∃ n, relu a h = Some (h ++ [n], length h) ∧
          data n = Z.max 0 (data na) ∧
          ((data na ≤ 0)%Z → data n = 0%Z) ∧
          ((0 < data na)%Z → data n = data na)) ∧
  fmap (M := list) data <$> relu_test (-5) = Some [-5; 0]%Z ∧
  fmap (M := list) data <$> relu_test 0 = Some [0; 0]%Z ∧
  fmap (M := list) data <$> relu_test 5 = Some [5; 5]%Z.
Proof.
  split; [intros; by apply relu_rule|].
  split_and!; try (by vm_compute).
  - intros h a na n σ ga g Ha Hle Hn Hσa Hσo.
    destruct (relu_rule h a na Ha) as (n' & Hn' & _ & _ & _ & Hcall).
    rewrite Hn in Hn'. assert (n' = n) as ->.
    { injection Hn' as Hn'. by apply app_inj_tail in Hn' as [_ ->]. }
    destruct (Hcall σ ga g Hσa Hσo) as (σ' & Hσ' & Hlook).
    exists σ'. split; [done|]. intros x.
    destruct (σ !! x) as [m|] eqn:Hm.
    + rewrite (Hlook x m Hm). f_equal. unfold bump. simpl.
      apply Z.leb_le in Hle. rewrite Hle.
      destruct m; unfold with_grad; simpl; f_equal. case_decide; lia.
    + apply lookup_ge_None in Hm. apply lookup_ge_None.
      by rewrite (call_backward_length _ _ _ Hσ').
  - intros num Hnum h a na Ha. eexists. split; [by apply relu_new|done].
  - intros h a na Ha. eexists. split; [by apply relu_new|]. simpl.
    unfold py_max. simpl. destruct (Z.gtb_spec (data na) 0); lia.
Qed.

Lemma relu_kink_witness :
  (∃ n σ',
     relu 0 (Variable_init 0%Z "" 0%Z "" [] []).1
     = Some ((Variable_init 0%Z "" 0%Z "" [] []).1 ++ [n], 1) ∧
     data n = 0%Z ∧
     call_backward 1 ((Variable_init 0%Z "" 0%Z "" [] []).1 ++ [with_grad 1%Z n])
     = Some σ') ∧
  (∃ σ',
     call_backward 1
       [mk_variable 0%Z "" 7%Z [] "" lambda_None;
        mk_variable 0%Z "" 1%Z [0] "relu" (relu_backward 0 1)] = Some σ' ∧
     ∀ x, σ' !! x
          = [mk_variable 0%Z "" 7%Z [] "" lambda_None;
             mk_variable 0%Z "" 1%Z [0] "relu" (relu_backward 0 1)] !! x) ∧
  (∃ n, relu 0 (Variable_init 5%Z "" 0%Z "" [] []).1
        = Some ((Variable_init 5%Z "" 0%Z "" [] []).1 ++ [n], 1) ∧
        data n = 5%Z) ∧
  (∃ n, relu 0 (Variable_init (-5)%Z "" 0%Z "" [] []).1
        = Some ((Variable_init (-5)%Z "" 0%Z "" [] []).1 ++ [n], 1) ∧
        data n = 0%Z).
Proof.
  split_and!.
  - destruct (proj1 relu_kink Z _ (Variable_init 0%Z "" 0%Z "" [] []).1
                0 _ eq_refl) as (n & Hn & Hd & _ & _ & Hcall).
    destruct (Hcall ((Variable_init 0%Z "" 0%Z "" [] []).1 ++ [with_grad 1%Z n])
                0%Z 1%Z eq_refl eq_refl) as (σ' & Hσ' & _).
    exists n, σ'. split_and!; [exact Hn|exact Hd|exact Hσ'].
  - refine (proj1 (proj2 relu_kink) (Variable_init 0%Z "" 0%Z "" [] []).1 0
              _ (mk_variable 0%Z "" 0%Z [0] "relu" (relu_backward 0 1))
              [mk_variable 0%Z "" 7%Z [] "" lambda_None;
               mk_variable 0%Z "" 1%Z [0] "relu" (relu_backward 0 1)]
              7%Z 1%Z eq_refl _ eq_refl eq_refl eq_refl).
    simpl. lia.
  - destruct (proj1 (proj2 (proj2 (proj2 (proj2 (proj2
                (proj2 relu_kink))))))
                (Variable_init 5%Z "" 0%Z "" [] []).1 0 _ eq_refl)
      as (n & Hn & _ & _ & Hpos).
    exists n. split; [exact Hn|]. apply Hpos. simpl. lia.
  - destruct (proj1 (proj2 (proj2 (proj2 (proj2 (proj2
                (proj2 relu_kink))))))
                (Variable_init (-5)%Z "" 0%Z "" [] []).1 0 _ eq_refl)
      as (n & Hn & _ & Hneg & _).
    exists n. split; [exact Hn|]. apply Hneg. simpl. lia.
Defined.

(** C9: [backward(root)] on a well-formed store returns (nothing but
    the updated store), with the gradient of [root] equal to 1 whatever
    it was before; it changes no attribute other than [grad] of any
    object, allocates nothing, and leaves the objects that [root] does
    not reach as they were. *)
Theorem backward_changes_gradients_only {num} `{PyNum num}
    (h : heap num) (root : ref) :
  wf_heap h → root < length h →
  ∃ h',
    backward root h = Some h' ∧
    get_grad h' root = Some py_1 ∧
    length h' = length h ∧
    (∀ x n, h !! x = Some n →
       ∃ n', h' !! x = Some n' ∧ data n' = data n ∧ _prev n' = _prev n ∧
             _op n' = _op n ∧ label n' = label n ∧
             _backward n' = _backward n) ∧
    (∀ x, ¬ reachable h root x → h' !! x = h !! x).
Proof.
  intros Hwf Hroot.
  destruct (backward_steps h root Hwf Hroot)
    as (st & h1 & h' & _ & Hseed & _ & Hb & _ & Hg1 & Hg & Hfr).
  pose proof (grad_only_trans _ _ _ Hg1 Hg) as Hg'.
  destruct (lookup_lt_is_Some_2 _ _ Hroot) as [n Hn].
  exists h'. split_and!; [done| | | |].
  - unfold get_grad. rewrite Hfr.
    2:{ apply backward_steps_parents; [done|]. intros v. by apply root_not_parent. }
    rewrite (set_grad_lookup _ _ _ _ _ _ Hseed Hn). by rewrite decide_True.
  - symmetry. by apply grad_only_length.
  - intros x m Hx. destruct (grad_only_lookup _ _ _ _ Hg' Hx) as [g Hx'].
    by exists (with_grad g m).
  - intros x Hx. rewrite Hfr.
    + destruct (h !! x) as [m|] eqn:Hm.
      * rewrite (set_grad_lookup _ _ _ _ _ _ Hseed Hm).
        rewrite decide_False; [done|]. intros ->. apply Hx. constructor.
      * apply lookup_ge_None in Hm. apply lookup_ge_None.
        by rewrite <- (grad_only_length _ _ Hg1).
    + apply backward_steps_parents; [done|].
      intros v Hv Hp. apply Hx. by eapply reach_parent.
Qed.

Lemma backward_changes_gradients_only_diamond :
  ∃ h',
    backward diamond.2 diamond.1 = Some h' ∧
    get_grad h' diamond.2 = Some 1%Z ∧
    length h' = length diamond.1 ∧
    (∀ x n, diamond.1 !! x = Some n →
       ∃ n', h' !! x = Some n' ∧ data n' = data n ∧ _prev n' = _prev n ∧
             _op n' = _op n ∧ label n' = label n ∧
             _backward n' = _backward n) ∧
    (∀ x, ¬ reachable diamond.1 diamond.2 x → h' !! x = diamond.1 !! x).
Proof.
  refine (backward_changes_gradients_only diamond.1 diamond.2 _ _).
  - apply wf_heapb_correct. vm_compute. reflexivity.
  - vm_compute. lia.
Defined.

(** C10: a binary operator ([+], [-], [*]) uses a second operand
    that is a [Variable] as it is; it lifts any other operand [x] into
    a new leaf with value [x], label [f'{x}'], gradient 0, no parents
    and [lambda: None] as [_backward].  The call then allocates exactly
    one more object, the result, whose parents are [self] and the
    operand or the leaf made for it.  The objects that existed before
    the call are unchanged: the new store is the old one with the
    leaf, if any, and the result appended. *)
Theorem binary_operand_lifting {num} `{PyNum num}
    (op : ref → operand num → heap num → option (heap num * ref))
    (h : heap num) (a : ref) (na : variable num) :
  op ∈ [__add__; __sub__; __mul__] →
  h !! a = Some na →
  (∀ b nb, h !! b = Some nb →
     ∃ n, op a (Obj b) h = Some (h ++ [n], length h) ∧
          _prev n = [a; b] ∧ grad n = py_0) ∧
  (∀ x,
     ∃ n, op a (Raw x) h
          = Some (h ++ [mk_variable x (py_str x) py_0 [] "" lambda_None; n],
                  S (length h)) ∧
          _prev n = [a; length h] ∧ grad n = py_0).
Proof.
  intros Hop Ha.
  assert (∀ x, (h ++ [leaf_of x]) !! a = Some na) as Ha'.
  { intros x. by apply lookup_app_l_Some. }
  assert (∀ x, (h ++ [leaf_of x]) !! length h = Some (leaf_of x)) as Hl.
  { intros x. by apply list_lookup_middle. }
  assert (∀ x, length (h ++ [leaf_of x]) = S (length h)) as Hlen.
  { intros x. rewrite length_app. simpl. lia. }
  rewrite !elem_of_cons in Hop.
  destruct Hop as [->|[->|[->|Hop]]]; [| | |by apply elem_of_nil in Hop].
  - split.
    + intros b nb Hb. eexists. split_and!;
        [by apply (add_lifted h a (Obj b) h b na nb)|done..].
    + intros x. eexists. split_and!;
        [rewrite (add_lifted h a (Raw x) _ _ na (leaf_of x) (lift_Raw h x))
           by done;
         rewrite Hlen, <- app_assoc; reflexivity|done..].
  - split.
    + intros b nb Hb. eexists. split_and!;
        [by apply (sub_lifted h a (Obj b) h b na nb)|done..].
    + intros x. eexists. split_and!;
        [rewrite (sub_lifted h a (Raw x) _ _ na (leaf_of x) (lift_Raw h x))
           by done;
         rewrite Hlen, <- app_assoc; reflexivity|done..].
  - split.
    + intros b nb Hb. eexists. split_and!;
        [by apply (mul_lifted h a (Obj b) h b na nb)|done..].
    + intros x. eexists. split_and!;
        [rewrite (mul_lifted h a (Raw x) _ _ na (leaf_of x) (lift_Raw h x))
           by done;
         rewrite Hlen, <- app_assoc; reflexivity|done..].
Qed.

Lemma binary_operand_lifting_witness :
  ∃ n, __sub__ 0 (Raw 7%Z) (Variable_init 3%Z "" 0%Z "" [] []).1
       = Some ((Variable_init 3%Z "" 0%Z "" [] []).1
                 ++ [mk_variable 7%Z "7" 0%Z [] "" lambda_None; n], 2) ∧
       _prev n = [0; 1].
Proof.
  destruct (proj2 (binary_operand_lifting __sub__
                     (Variable_init 3%Z "" 0%Z "" [] []).1 0 _
                     ltac:(set_solver) eq_refl) 7%Z) as (n & Hn & Hp & _).
  exists n. split; [exact Hn|exact Hp].
Defined.

(** * Further properties of the engine *)

(** ** Tests of subtraction and of an operand used twice *)

(** [a = Variable(x); b = Variable(y); c = a - b; c.backward()] *)
Definition sub_test (x y : Z) : option (heap Z) :=
  let '(h, a) := Variable_init x "" 0%Z "" [] [] in
  let '(h, b) := Variable_init y "" 0%Z "" [] h in
  '(h, c) ← __sub__ a (Obj b) h;
  backward c h.

(** [a = Variable(x); c = a * a; c.backward()] *)
Definition square_test (x : Z) : option (heap Z) :=
  let '(h, a) := Variable_init x "" 0%Z "" [] [] in
  '(h, c) ← __mul__ a (Obj a) h;
  backward c h.

(** [a = Variable(x); c = a - a; c.backward()] *)
Definition cancel_test (x : Z) : option (heap Z) :=
  let '(h, a) := Variable_init x "" 0%Z "" [] [] in
  '(h, c) ← __sub__ a (Obj a) h;
  backward c h.

(** X1: [a - b] allocates one object [out], whose value is
    [a.data - b.data], with parents [(a, b)] and with the label of [a];
    a later call of [out._backward()], at any gradient [g] of [out],
    makes [a.grad += g] and then [b.grad += -1 * g] and changes nothing
    else.  For two new objects of any values, [backward] of the
    difference leaves the gradients 1, -1 and 1. *)
Theorem sub_difference_rule :
  (∀ num (Hnum : PyNum num) (h : heap num) a b na nb,
     h !! a = Some na → h !! b = Some nb →
     ∃ n, __sub__ a (Obj b) h = Some (h ++ [n], length h) ∧
          data n = py_sub (data na) (data nb) ∧
          grad n = py_0 ∧ _prev n = [a; b] ∧ label n = label na ∧
          ∀ (σ : heap num) ga gb g,
            σ !! a = Some (with_grad ga na) →
            σ !! b = Some (with_grad gb nb) →
            σ !! length h = Some (with_grad g n) →
            ∃ σ', call_backward (length h) σ = Some σ' ∧
                  ∀ x m, σ !! x = Some m →
                    σ' !! x
                    = Some (with_grad
                              (bump x b (py_mul (py_neg py_1) g)
                                 (bump x a g (grad m)))
                              m)) ∧
  ∀ x y : Z,
    fmap (M := list) grad <$> sub_test x y = Some [1; -1; 1]%Z.
Proof.
  split; [|by vm_compute].
  intros num Hnum h a b na nb Ha Hb. eexists. split_and!.
  - by apply (sub_lifted h a (Obj b) h b na nb).
  - done.
  - done.
  - done.
  - done.
  - intros σ ga gb g Hσa Hσb Hσo. simpl.
    pose proof (lookup_lt_Some _ _ _ Ha). pose proof (lookup_lt_Some _ _ _ Hb).
    pose proof (lookup_lt_Some _ _ _ Hσa). pose proof (lookup_lt_Some _ _ _ Hσb).
    eapply (call_table_lookup σ (length h) _
              [(a, g); (b, py_mul (py_neg py_1) g)] Hσo).
    + simpl. intros o [= <-]. rewrite !not_elem_of_cons.
      split_and!; [lia|lia|apply not_elem_of_nil].
    + simpl. unfold get_grad. by rewrite Hσo.
    + repeat constructor; simpl; lia.
Qed.

Lemma sub_difference_rule_witness :
  ∃ n σ',
    __sub__ 0 (Obj 1) (Variable_init 4%Z "" 0%Z "" []
                 (Variable_init 3%Z "" 0%Z "" [] []).1).1
    = Some ((Variable_init 4%Z "" 0%Z "" []
                 (Variable_init 3%Z "" 0%Z "" [] []).1).1 ++ [n], 2) ∧
    data n = (-1)%Z ∧
    call_backward 2 ((Variable_init 4%Z "" 0%Z "" []
                 (Variable_init 3%Z "" 0%Z "" [] []).1).1 ++ [with_grad 1%Z n])
    = Some σ'.
Proof.
  destruct (proj1 sub_difference_rule Z _ (Variable_init 4%Z "" 0%Z "" []
                 (Variable_init 3%Z "" 0%Z "" [] []).1).1
              0 1 _ _ eq_refl eq_refl) as (n & Hn & Hd & _ & _ & _ & Hcall).
  destruct (Hcall ((Variable_init 4%Z "" 0%Z "" []
                 (Variable_init 3%Z "" 0%Z "" [] []).1).1 ++ [with_grad 1%Z n])
              0%Z 0%Z 1%Z eq_refl eq_refl eq_refl) as (σ' & Hσ' & _).
  exists n, σ'. split_and!; [exact Hn|exact Hd|exact Hσ'].
Defined.

(** X2: an object used as both operands of one operator receives both
    additions: for a new object [a] of any integer value [x],
    [backward] of [a * a] leaves [a.grad == 2 * x], and [backward] of
    [a - a] leaves [a.grad == 0]. *)
Theorem operand_used_twice (x : Z) :
  fmap (M := list) grad <$> square_test x = Some [2 * x; 1]%Z ∧
  fmap (M := list) grad <$> cancel_test x = Some [0; 1]%Z.
Proof.
  split; [|by vm_compute].
  cbv -[Z.add Z.mul]. do 2 f_equal. lia.
Qed.

(** ** Seeding and resetting *)

Section Reset.
Context {num : Type} `{PyNum num}.
Implicit Types (h : heap num) (L : list ref).

(** What a pass does to the store, apart from the values of the
    gradients. *)
Lemma backward_effect h root :
  wf_heap h → root < length h →
  ∃ h', backward root h = Some h' ∧ grad_only h h' ∧
        ∀ x, ¬ reachable h root x → h' !! x = h !! x.
Proof.
  intros Hwf Hroot.
  destruct (backward_steps h root Hwf Hroot)
    as (st & h1 & h' & _ & Hseed & _ & Hb & _ & Hg1 & Hg & Hfr).
  exists h'. split_and!; [done|by eapply grad_only_trans|].
  intros x Hx. rewrite Hfr.
  - destruct (h !! x) as [m|] eqn:Hm.
    + rewrite (set_grad_lookup _ _ _ _ _ _ Hseed Hm).
      rewrite decide_False; [done|]. intros ->. apply Hx. constructor.
    + apply lookup_ge_None in Hm. apply lookup_ge_None.
      by rewrite <- (grad_only_length _ _ Hg1).
  - apply backward_steps_parents; [done|].
    intros v Hv Hp. apply Hx. by eapply reach_parent.
Qed.

(** The loop [for v in L: v.zero_grad()], object by object. *)
Lemma zero_all_lookup h L :
  Forall (λ v, v < length h) L →
  ∃ hz, for_each zero_grad L h = Some hz ∧ length hz = length h ∧
        ∀ p m, h !! p = Some m →
               hz !! p = Some (if decide (p ∈ L) then with_grad py_0 m else m).
Proof.
  revert h. induction L as [|v L IH]; intros h HL; cbn [for_each].
  - exists h. split_and!; [done..|]. intros p m Hp.
    rewrite decide_False; [done|apply not_elem_of_nil].
  - apply Forall_cons in HL as [Hv HL].
    destruct (set_grad_is_Some h v py_0 Hv) as [h1 Hh1].
    change (zero_grad v h) with (set_grad v py_0 h). rewrite Hh1. simpl.
    pose proof (grad_only_length _ _ (set_grad_grad_only _ _ _ _ Hh1)) as Hlen.
    destruct (IH h1) as (hz & -> & Hlz & Hlook); [by rewrite <- Hlen|].
    exists hz. split_and!; [done|congruence|].
    intros p m Hp. rewrite (Hlook p _ (set_grad_lookup _ _ _ _ _ _ Hh1 Hp)).
    f_equal. destruct (decide (p = v)) as [->|Hne].
    + rewrite (decide_True (P := v ∈ v :: L)) by (by left).
      by destruct (decide (v ∈ L)).
    + destruct (decide (p ∈ L)) as [Hin|Hin].
      * rewrite decide_True; [done|by right].
      * rewrite decide_False; [done|].
        intros [?|?]%elem_of_cons; by simplify_eq.
Qed.

End Reset.

(** X3: the gradient that the root holds before the pass does not
    matter: [root.grad = g; root.backward()] ends in the same store as
    [root.backward()] alone. *)
Theorem backward_ignores_root_gradient {num} `{PyNum num}
    (h hg : heap num) (root : ref) (g : num) :
  set_grad root g h = Some hg →
  backward root hg = backward root h.
Proof.
  intros Hset. pose proof (set_grad_grad_only _ _ _ _ Hset) as Hg.
  unfold backward. rewrite (build_topo_same _ _ _ _ Hg).
  destruct (build_topo _ _ _ _) as [st|]; simpl; [|done].
  unfold set_grad in *.
  destruct (h !! root) as [n|] eqn:Hn; simplify_eq/=.
  rewrite list_lookup_insert_eq by (by eapply lookup_lt_Some). simpl.
  by rewrite list_insert_insert_eq.
Qed.

Lemma backward_ignores_root_gradient_witness :
  backward diamond.2 (<[diamond.2 := mk_variable 42%Z "" 9%Z [3; 4] "+"
                                        (add_backward 3 4 5)]> diamond.1)
  = backward diamond.2 diamond.1.
Proof.
  exact (backward_ignores_root_gradient diamond.1 _ diamond.2 9%Z eq_refl).
Defined.

(** X4: [backward] of an object without parents and with the default
    [_backward] sets the gradient of that object to 1 and changes
    nothing else. *)
Theorem backward_of_leaf {num} `{PyNum num}
    (h : heap num) (root : ref) (n : variable num) :
  h !! root = Some n → _prev n = [] → _backward n = lambda_None →
  backward root h = Some (<[root := with_grad py_1 n]> h).
Proof.
  intros Hn Hprev Hclo. unfold backward. simpl.
  rewrite decide_False by apply not_elem_of_empty.
  rewrite Hn. simpl. rewrite Hprev. simpl.
  rewrite (set_grad_Some _ _ _ _ Hn). simpl.
  unfold call_backward.
  rewrite list_lookup_insert_eq by (by eapply lookup_lt_Some). simpl.
  by rewrite Hclo.
Qed.

Lemma backward_of_leaf_witness :
  backward 0 diamond.1
  = Some (<[0 := mk_variable 2%Z "a" 1%Z [] "" lambda_None]> diamond.1).
Proof.
  exact (backward_of_leaf diamond.1 0 _ eq_refl eq_refl eq_refl).
Defined.

(** X5: a pass from zero gradients is undone by [zero_grad]: after
    [root.backward()] on a well-formed store in which every object
    reachable from [root] has gradient 0, calling [zero_grad] on the
    reachable objects, in any order and any number of times each,
    gives back the store from before the pass, so that a second
    [root.backward()] ends in the same store as the first. *)
Theorem zero_grad_undoes_backward {num} `{PyNum num}
    (h : heap num) (root : ref) (L : list ref) :
  wf_heap h → root < length h →
  (∀ v, reachable h root v → get_grad h v = Some py_0) →
  (∀ v, v ∈ L ↔ reachable h root v) →
  ∃ h1, backward root h = Some h1 ∧
        for_each zero_grad L h1 = Some h ∧
        (for_each zero_grad L h1 ≫= backward root) = Some h1.
Proof.
  intros Hwf Hroot Hzero HL.
  destruct (backward_effect h root Hwf Hroot) as (h1 & Hb & Hg & Hfr).
  destruct (zero_all_lookup h1 L) as (hz & Hz & Hlen & Hlook).
  { apply Forall_forall. intros v Hv%HL.
    rewrite <- (grad_only_length _ _ Hg). by eapply reachable_valid. }
  assert (hz = h) as ->.
  { apply list_eq. intros i. destruct (h !! i) as [m|] eqn:Hm.
    - destruct (grad_only_lookup _ _ _ _ Hg Hm) as [g Hi].
      rewrite (Hlook i _ Hi). f_equal. case_decide as Hin.
      + apply HL, Hzero in Hin. unfold get_grad in Hin. rewrite Hm in Hin.
        simpl in Hin. injection Hin as Hin. destruct m. simpl in *. by subst.
      + assert (h1 !! i = h !! i) as Heq by (apply Hfr; by intros ?%HL).
        rewrite Hi, Hm in Heq. by injection Heq.
    - apply lookup_ge_None in Hm. apply lookup_ge_None.
      rewrite Hlen, <- (grad_only_length _ _ Hg). done. }
  exists h1. split_and!; [done..|]. rewrite Hz. simpl. done.
Qed.

Lemma zero_grad_undoes_backward_witness :
  ∃ h1, backward fan_out_graph.2 fan_out_graph.1 = Some h1 ∧
        for_each zero_grad [0; 3; 1; 2; 0] h1 = Some fan_out_graph.1 ∧
        (for_each zero_grad [0; 3; 1; 2; 0] h1 ≫= backward fan_out_graph.2)
        = Some h1.
Proof.
  apply (zero_grad_undoes_backward fan_out_graph.1 fan_out_graph.2).
  - apply wf_heapb_correct. vm_compute. reflexivity.
  - vm_compute. lia.
  - intros v Hv. assert (v < 4) as Hlt.
    { eapply (reachable_valid fan_out_graph.1 3); [|vm_compute; lia|exact Hv].
      apply wf_heapb_correct. vm_compute. reflexivity. }
    do 4 (destruct v as [|v]; [reflexivity|]). lia.
  - intros v. split.
    + intros Hv. rewrite !elem_of_cons in Hv.
      assert (reachable fan_out_graph.1 3 2) as H2.
      { eapply reach_parent; [apply reach_root|]. vm_compute. by left. }
      assert (reachable fan_out_graph.1 3 0) as H0.
      { eapply reach_parent; [apply reach_root|]. vm_compute. right. by left. }
      assert (reachable fan_out_graph.1 3 1) as H1.
      { eapply reach_parent; [exact H2|]. vm_compute. right. by left. }
      destruct Hv as [->|[->|[->|[->|[->|Hv]]]]];
        [done|apply reach_root|done|done|done|by apply elem_of_nil in Hv].
    + intros Hv. assert (v < 4) as Hlt.
      { eapply (reachable_valid fan_out_graph.1 3); [|vm_compute; lia|exact Hv].
        apply wf_heapb_correct. vm_compute. reflexivity. }
      rewrite !elem_of_cons. do 4 (destruct v as [|v]; [tauto|]). lia.
Defined.

(** X6: in a pass on a well-formed store the closure of the root is
    called first, every reachable object is called once and no other
    object is called, and every call of an object comes before every
    call of each of its parents, which are called too.  So when
    [v._backward()] runs, all objects that use [v] have already made
    their additions to [v.grad]: the store in which the calls before
    that of [v] end already holds [v] as it is at the end of the
    pass. *)
Theorem backward_calls_consumers_first {num} `{PyNum num}
    (h : heap num) (root : ref) :
  wf_heap h → root < length h →
  ∃ hs h' calls,
    set_grad root py_1 h = Some hs ∧
    backward_logged root h = Some (h', calls) ∧
    head calls = Some root ∧
    NoDup calls ∧
    (∀ v, v ∈ calls ↔ reachable h root v) ∧
    (∀ i v p, calls !! i = Some v → p ∈ parents h v →
              (∃ j, i < j ∧ calls !! j = Some p) ∧
              (∀ j, calls !! j = Some p → i < j)) ∧
    (∀ L1 v L2, calls = L1 ++ v :: L2 →
       ∃ σ, for_each call_backward L1 hs = Some σ ∧ σ !! v = h' !! v).
Proof.
  intros Hwf Hroot.
  destruct (backward_pass h root Hwf Hroot)
    as (st & hs & h' & css & Hst & [Hnd Hord] & Hin & [T HT]%last_Some & Hseed
        & Hg1 & Hloop & _ & Hlog & Hnlw & _).
  assert (NoDup (reverse st.2)) as Hndr by (by rewrite reverse_Permutation).
  assert (wf_heap hs) as Hwfs by (by eapply grad_only_wf).
  exists hs, h', (reverse st.2). split_and!; [done|done| |done| | |].
  - by rewrite HT, reverse_snoc.
  - intros v. rewrite elem_of_reverse. apply Hin.
  - intros i v p Hi Hp.
    pose proof (lookup_lt_Some _ _ _ Hi) as Hlt. rewrite length_reverse in Hlt.
    pose proof Hi as Hi'. rewrite reverse_lookup in Hi' by done.
    destruct (Hord _ v p Hi' Hp) as (j & Hj & Hjp).
    assert (reverse st.2 !! (length st.2 - S j) = Some p) as Hjr.
    { rewrite reverse_lookup by lia.
      by replace (length st.2 - S (length st.2 - S j)) with j by lia. }
    split; [exists (length st.2 - S j); split; [lia|done]|].
    intros j' Hj'. rewrite (NoDup_lookup _ _ _ _ Hndr Hj' Hjr). lia.
  - intros L1 v L2 Hsplit. rewrite Hsplit in Hloop, Hnlw.
    rewrite for_each_app in Hloop.
    assert (Forall (λ w, w < length hs) (L1 ++ v :: L2)) as Hvalid.
    { rewrite <- Hsplit. apply Forall_forall. intros w Hw.
      rewrite elem_of_reverse in Hw. rewrite <- (grad_only_length _ _ Hg1).
      apply (reachable_valid h root); [done|done|by apply Hin]. }
    apply Forall_app in Hvalid as [Hv1 Hv2].
    destruct (call_loop_frame hs L1 Hwfs Hv1) as (σ & Hσ & Hgσ & _).
    rewrite Hσ in Hloop. simpl in Hloop.
    exists σ. split; [done|].
    destruct (call_loop_frame σ (v :: L2)) as (h'' & Hloop' & _ & Hfr).
    { by eapply grad_only_wf. }
    { by rewrite <- (grad_only_length _ _ Hgσ). }
    simpl in Hloop'. rewrite Hloop in Hloop'. simplify_eq. symmetry.
    apply Hfr.
    apply no_late_writer_app_r in Hnlw. destruct Hnlw as [Hnw _].
    intros w Hw Hww. rewrite (grad_only_writes_of _ _ _ Hgσ) in Hww.
    apply (Hnw w Hw). by apply (writes_of_parents hs w Hwfs).
Qed.

Lemma backward_calls_consumers_first_diamond :
  ∃ hs h' calls,
    set_grad diamond.2 1%Z diamond.1 = Some hs ∧
    backward_logged diamond.2 diamond.1 = Some (h', calls) ∧
    head calls = Some diamond.2 ∧
    NoDup calls ∧
    (∀ v, v ∈ calls ↔ reachable diamond.1 diamond.2 v) ∧
    (∀ i v p, calls !! i = Some v → p ∈ parents diamond.1 v →
              (∃ j, i < j ∧ calls !! j = Some p) ∧
              (∀ j, calls !! j = Some p → i < j)) ∧
    (∀ L1 v L2, calls = L1 ++ v :: L2 →
       ∃ σ, for_each call_backward L1 hs = Some σ ∧ σ !! v = h' !! v).
Proof.
  refine (backward_calls_consumers_first diamond.1 diamond.2 _ _).
  - apply wf_heapb_correct. vm_compute. reflexivity.
  - vm_compute. lia.
Defined.

(** X7: the store in which a pass on a well-formed store ends solves
    the equations of reverse-mode differentiation: every called object
    made the additions that the table of local derivatives gives for
    the gradient that this object holds at the end of the pass, and the
    gradient of every object at the end is its gradient at the start (1
    for the root) with all these additions made in call order. *)
Theorem backward_solves_equations {num} `{PyNum num}
    (h : heap num) (root : ref) :
  wf_heap h → root < length h →
  ∃ h' calls css,
    backward_logged root h = Some (h', calls) ∧
    backward root h = Some h' ∧
    Forall2 (additions_of h h') calls css ∧
    ∀ p m, h !! p = Some m →
      h' !! p
      = Some (with_grad
                (bump_all p (concat css)
                   (if decide (p = root) then py_1 else grad m))
                m).
Proof.
  intros Hwf Hroot.
  destruct (build_topo_root h root Hwf Hroot) as (st & Hst & Hs & Hin & _).
  destruct (backward_steps h root Hwf Hroot)
    as (st' & hs & h' & Hst' & Hseed & Hloop & Hb & Hlog & Hg1 & _ & _).
  rewrite Hst in Hst'. simplify_eq.
  destruct (call_loop_equations hs (reverse st'.2))
    as (h'' & css & Hloop' & Hg & Hadd & Hlook).
  { by eapply grad_only_wf. }
  { apply Forall_forall. intros v Hv. rewrite elem_of_reverse in Hv.
    rewrite <- (grad_only_length _ _ Hg1).
    apply (reachable_valid h root); [done|done|by apply Hin]. }
  { eapply no_late_writer_grad_only; [done|].
    by apply reverse_topo_no_late_writer. }
  rewrite Hloop in Hloop'. simplify_eq.
  exists h'', (reverse st'.2), css. split_and!; [done|done| |].
  - eapply Forall2_impl; [exact Hadd|]. intros w cw (n1 & Hn1 & Hcw).
    destruct (grad_only_lookup_r _ _ _ _ Hg1 Hn1) as (n0 & Hn0 & Heq).
    exists n0. split; [done|]. by rewrite Heq in Hcw.
  - intros p m Hp.
    rewrite (Hlook p _ (set_grad_lookup _ _ _ _ _ _ Hseed Hp)).
    by case_decide.
Qed.

Lemma backward_solves_equations_diamond :
  ∃ h' calls css,
    backward_logged diamond.2 diamond.1 = Some (h', calls) ∧
    backward diamond.2 diamond.1 = Some h' ∧
    Forall2 (additions_of diamond.1 h') calls css ∧
    ∀ p m, diamond.1 !! p = Some m →
      h' !! p
      = Some (with_grad
                (bump_all p (concat css)
                   (if decide (p = diamond.2) then 1%Z else grad m))
                m).
Proof.
  refine (backward_solves_equations diamond.1 diamond.2 _ _).
  - apply wf_heapb_correct. vm_compute. reflexivity.
  - vm_compute. lia.
Defined.

(** ** The traversal of a graph with cycles

    Nothing in [build_topo] relies on the parents having been made
    before the object: the test [v not in visited] alone stops the
    recursion.  So the traversal is studied here on every store whose
    references are to objects of the store, also one whose [_prev]
    attributes have been assigned so as to form a cycle. *)

Section AnyGraph.
Context {num : Type} `{PyNum num}.
Implicit Types (h : heap num) (st : topo_state) (L : list ref).

Definition valid_refs h : Prop :=
  ∀ i n, h !! i = Some n → Forall (λ p, p < length h) (_prev n).

(** The objects that have not been visited. *)
Definition unvisited h st : gset ref := set_seq 0 (length h) ∖ st.1.

Definition any_inv h st : Prop :=
  NoDup st.2 ∧
  (∀ x, x ∈ st.2 → x ∈ st.1) ∧
  (∀ x p, x ∈ st.2 → p ∈ parents h x → p ∈ st.1).

Definition any_post h (roots : list ref) st st' : Prop :=
  any_inv h st' ∧
  (∀ x, x ∈ st.1 → x ∈ st'.1) ∧
  (∀ c, c ∈ roots → c ∈ st'.1) ∧
  (∀ x, x ∈ st'.1 → x ∉ st'.2 → x ∈ st.1 ∧ x ∉ st.2) ∧
  ∃ new, st'.2 = st.2 ++ new ∧
         ∀ x, x ∈ new → (x ∉ st.1) ∧ (∃ c, c ∈ roots ∧ reachable h c x).

Lemma unvisited_mono h st st' :
  (∀ x, x ∈ st.1 → x ∈ st'.1) →
  size (unvisited h st') ≤ size (unvisited h st).
Proof.
  intros Hsub. apply subseteq_size. unfold unvisited. intros x.
  rewrite !elem_of_difference. intros [Hx Hn]. split; [done|]. by auto.
Qed.

Lemma unvisited_mark h st v :
  v < length h → v ∉ st.1 →
  size (unvisited h ({[v]} ∪ st.1, st.2)) < size (unvisited h st).
Proof.
  intros Hv Hn. apply subset_size. unfold unvisited. simpl. split.
  - intros x. rewrite !elem_of_difference, elem_of_union.
    intros [Hx Hnx]. split; [done|]. by auto.
  - intros Hsub. specialize (Hsub v).
    rewrite !elem_of_difference, elem_of_union, elem_of_singleton,
      elem_of_set_seq in Hsub.
    destruct Hsub as [_ Hsub]; [split; [lia|done]|]. by auto.
Qed.

Lemma unvisited_size h st : size (unvisited h st) ≤ length h.
Proof.
  trans (size (set_seq 0 (length h) : gset ref)); [|by rewrite size_set_seq].
  apply subseteq_size. unfold unvisited. intros x.
  rewrite elem_of_difference. by intros [Hx _].
Qed.

Lemma any_post_cons h c cs st st1 st2 :
  any_post h [c] st st1 → any_post h cs st1 st2 → any_post h (c :: cs) st st2.
Proof.
  intros (_ & Hmono1 & Hin1 & Hpre1 & new1 & Hnew1 & Hr1)
         (Hinv & Hmono2 & Hin2 & Hpre2 & new2 & Hnew2 & Hr2).
  split_and!; [done|by auto| | |].
  - intros x [->|Hx]%elem_of_cons; [|by auto].
    apply Hmono2, Hin1. by left.
  - intros x Hx Hnx. destruct (Hpre2 x Hx Hnx). by apply Hpre1.
  - exists (new1 ++ new2). split; [by rewrite Hnew2, Hnew1, app_assoc|].
    intros x [Hx|Hx]%elem_of_app.
    + destruct (Hr1 x Hx) as (Hn & c' & ->%list_elem_of_singleton & Hc').
      split; [done|]. exists c. split; [by left|done].
    + destruct (Hr2 x Hx) as (Hn & c' & Hc' & Hreach).
      split; [by auto|]. exists c'. split; [by right|done].
Qed.

Lemma for_each_build_topo_any h fuel :
  (∀ v st, size (unvisited h st) < fuel → v < length h → any_inv h st →
     ∃ st', build_topo fuel h v st = Some st' ∧ any_post h [v] st st') →
  ∀ cs st,
    Forall (λ c, c < length h) cs → size (unvisited h st) < fuel →
    any_inv h st →
    ∃ st', for_each (build_topo fuel h) cs st = Some st' ∧
           any_post h cs st st'.
Proof.
  intros IH cs. induction cs as [|c cs IHcs]; intros st Hcs Hsz Hinv; simpl.
  - exists st. split; [done|]. split_and!; [done..| | |exists []].
    + by intros c ?%elem_of_nil.
    + done.
    + split; [by rewrite app_nil_r|]. by intros x ?%elem_of_nil.
  - apply Forall_cons in Hcs as [Hc Hcs].
    destruct (IH c st Hsz Hc Hinv) as (st1 & -> & Hpost1). simpl.
    destruct (IHcs st1 Hcs) as (st2 & -> & Hpost2).
    { destruct Hpost1 as (_ & Hmono & _).
      pose proof (unvisited_mono h st st1 Hmono). lia. }
    { by destruct Hpost1. }
    exists st2. split; [done|by eapply any_post_cons].
Qed.

Lemma build_topo_any h :
  valid_refs h →
  ∀ fuel v st, size (unvisited h st) < fuel → v < length h → any_inv h st →
    ∃ st', build_topo fuel h v st = Some st' ∧ any_post h [v] st st' ∧
           (v ∉ st.1 → last st'.2 = Some v).
Proof.
  intros Hvalid fuel. induction fuel as [|fuel IH]; intros v st Hsz Hv Hinv;
    [lia|].
  simpl. case_decide as Hvis.
  - exists st. split_and!; [done| |done].
    split_and!; [done..| | |exists []].
    + by intros c ->%list_elem_of_singleton.
    + done.
    + split; [by rewrite app_nil_r|]. by intros x ?%elem_of_nil.
  - destruct (lookup_lt_is_Some_2 _ _ Hv) as [n Hn]. rewrite Hn. simpl.
    assert (parents h v = _prev n) as Hpar by (unfold parents; by rewrite Hn).
    destruct Hinv as (Hnd & Hsub & Hclosed).
    set (st1 := ({[v]} ∪ st.1, st.2) : topo_state).
    assert (any_inv h st1) as Hinv1.
    { split_and!; [done|..]; simpl.
      - intros x Hx. apply elem_of_union. right. by apply Hsub.
      - intros x p Hx Hp. apply elem_of_union. right. by eapply Hclosed. }
    destruct (for_each_build_topo_any h fuel) with (cs := _prev n) (st := st1)
      as (st2 & -> & Hpost); [|by eapply Hvalid| |done|].
    { intros w st0 ? ? Hinv0.
      destruct (IH w st0) as (st' & ? & ? & _); eauto. }
    { pose proof (unvisited_mark h st v Hv Hvis) as Hmark.
      fold st1 in Hmark. lia. }
    simpl.
    destruct Hpost as ((Hnd2 & Hsub2 & Hclosed2) & Hmono & Hin & Hpre
                       & new & Hnew & Hr).
    simpl in *.
    assert (v ∈ st2.1) as Hv2.
    { apply Hmono, elem_of_union. left. by apply elem_of_singleton. }
    assert (v ∉ st2.2) as Hfresh.
    { rewrite Hnew. intros [Hx|Hx]%elem_of_app; [by apply Hvis, Hsub|].
      destruct (Hr v Hx) as [Hn' _]. apply Hn', elem_of_union. left.
      by apply elem_of_singleton. }
    eexists. split_and!; [done| |by intros; apply last_snoc]. simpl.
    split_and!; [split_and!|..]; simpl.
    + apply NoDup_app. split_and!; [done| |apply NoDup_singleton].
      intros x Hx ->%list_elem_of_singleton. done.
    + intros x [Hx | ->%list_elem_of_singleton]%elem_of_app; by auto.
    + intros x p [Hx | ->%list_elem_of_singleton]%elem_of_app Hp.
      * by eapply Hclosed2.
      * apply Hin. by rewrite <- Hpar.
    + intros x Hx. apply Hmono, elem_of_union. by right.
    + by intros c ->%list_elem_of_singleton.
    + intros x Hx Hnx. rewrite elem_of_app, list_elem_of_singleton in Hnx.
      destruct (Hpre x Hx) as [Hx1 Hx2]; [tauto|].
      split; [|done]. apply elem_of_union in Hx1 as [->%elem_of_singleton|]; tauto.
    + exists (new ++ [v]). split; [by rewrite Hnew, app_assoc|].
      intros x [Hx | ->%list_elem_of_singleton]%elem_of_app.
      * destruct (Hr x Hx) as (Hn' & c & Hc & Hreach). split.
        { intros Hx'. apply Hn', elem_of_union. by right. }
        exists v. split; [by apply list_elem_of_singleton|].
        eapply reachable_trans; [|done].
        eapply reach_parent; [constructor|by rewrite Hpar].
      * split; [done|]. exists v.
        split; [by apply list_elem_of_singleton|constructor].
Qed.

End AnyGraph.

(** X8: [build_topo] needs no acyclicity.  On every store whose
    [_prev] attributes refer to objects of the store, cycles included,
    the traversal from [root] returns within a call depth of the number
    of objects plus one, and [topo] then holds every object reachable
    from [root] exactly once and nothing else, with [root] last. *)
Theorem build_topo_tolerates_cycles {num} `{PyNum num}
    (h : heap num) (root : ref) :
  valid_refs h → root < length h →
  ∃ st,
    build_topo (S (length h)) h root (∅, []) = Some st ∧
    NoDup st.2 ∧
    (∀ x, x ∈ st.2 ↔ reachable h root x) ∧
    last st.2 = Some root.
Proof.
  intros Hvalid Hroot.
  destruct (build_topo_any h Hvalid (S (length h)) root (∅, []))
    as (st & Hrun & Hpost & Hlast); [|done| |].
  { pose proof (unvisited_size h (∅, [])). lia. }
  { split_and!; simpl; [constructor|..].
    - by intros x ?%elem_of_nil.
    - by intros x p ?%elem_of_nil. }
  destruct Hpost as ((Hnd & Hsub & Hclosed) & _ & Hin & Hpre & new & Hnew & Hr).
  simpl in *.
  assert (∀ x, x ∈ st.1 → x ∈ st.2) as Hdone.
  { intros x Hx. destruct (decide (x ∈ st.2)) as [|Hn]; [done|].
    destruct (Hpre x Hx Hn) as [Hx0 _]. by apply elem_of_empty in Hx0. }
  exists st. split_and!; [done..| |by apply Hlast, not_elem_of_empty].
  intros x. split.
  - rewrite Hnew. simpl. intros Hx.
    by destruct (Hr x Hx) as (_ & c & ->%list_elem_of_singleton & Hc).
  - induction 1 as [|v p _ IH Hp].
    + apply Hdone, Hin. by apply list_elem_of_singleton.
    + apply Hdone. by eapply Hclosed.
Qed.

(** Two objects that have each other as parent. *)
Definition two_cycle : heap Z :=
  [mk_variable 1%Z "a" 0%Z [1] "" lambda_None;
   mk_variable 2%Z "b" 0%Z [0; 0] "" lambda_None].

Lemma build_topo_tolerates_cycles_witness :
  ∃ st,
    build_topo (S (length two_cycle)) two_cycle 0 (∅, []) = Some st ∧
    NoDup st.2 ∧
    (∀ x, x ∈ st.2 ↔ reachable two_cycle 0 x) ∧
    last st.2 = Some 0.
Proof.
  apply (build_topo_tolerates_cycles two_cycle 0).
  - intros i n Hi. do 2 (destruct i as [|i]; [injection Hi as <-; simpl;
                         repeat constructor; lia|]).
    discriminate Hi.
  - simpl. lia.
Defined.

(** ** What a call of an operator leaves in place *)

Section Allocation.
Context {num : Type} `{PyNum num}.
Implicit Types (h : heap num) (n : variable num).

(** The result of an operator: the store it was given, then the lifted
    leaf if there is one, then the result. *)
Lemma operators_result h a other k np_tanh h' out :
  __add__ a other h = Some (h', out) ∨ __sub__ a other h = Some (h', out) ∨
  __mul__ a other h = Some (h', out) ∨ __pow__ a k h = Some (h', out) ∨
  relu a h = Some (h', out) ∨ tanh np_tanh a h = Some (h', out) →
  ∃ h1 n, h' = h1 ++ [n] ∧ out = length h1 ∧
          (h1 = h ∨ ∃ x, h1 = h ++ [leaf_of x]) ∧
          grad n = py_0 ∧ a ∈ _prev n.
Proof.
  intros Hop.
  assert (∀ h1 b, lift other h = (h1, b) →
            h1 = h ∨ ∃ x, h1 = h ++ [leaf_of x]) as Hlift.
  { intros h1 b. destruct other as [r|x];
      [rewrite lift_Obj|rewrite lift_Raw]; intros [= <- <-]; eauto. }
  destruct Hop as [Hop|[Hop|[Hop|[Hop|[Hop|Hop]]]]].
  - destruct (lift other h) as [h1 b] eqn:Hl.
    destruct (h1 !! a) as [na|] eqn:Ha;
      [|by unfold __add__, get_data in Hop; rewrite Hl, Ha in Hop].
    destruct (h1 !! b) as [nb|] eqn:Hb;
      [|by unfold __add__, get_data in Hop; rewrite Hl, Ha, ?Hb in Hop].
    rewrite (add_lifted _ _ _ _ _ _ _ Hl Ha Hb) in Hop. simplify_eq.
    eexists _, _. split_and!; [done|done|by eapply Hlift|done|by left].
  - destruct (lift other h) as [h1 b] eqn:Hl.
    destruct (h1 !! a) as [na|] eqn:Ha;
      [|by unfold __sub__, get_data in Hop; rewrite Hl, Ha in Hop].
    destruct (h1 !! b) as [nb|] eqn:Hb;
      [|by unfold __sub__, get_data in Hop; rewrite Hl, Ha, ?Hb in Hop].
    rewrite (sub_lifted _ _ _ _ _ _ _ Hl Ha Hb) in Hop. simplify_eq.
    eexists _, _. split_and!; [done|done|by eapply Hlift|done|by left].
  - destruct (lift other h) as [h1 b] eqn:Hl.
    destruct (h1 !! a) as [na|] eqn:Ha;
      [|by unfold __mul__, get_data in Hop; rewrite Hl, Ha in Hop].
    destruct (h1 !! b) as [nb|] eqn:Hb;
      [|by unfold __mul__, get_data in Hop; rewrite Hl, Ha, ?Hb in Hop].
    rewrite (mul_lifted _ _ _ _ _ _ _ Hl Ha Hb) in Hop. simplify_eq.
    eexists _, _. split_and!; [done|done|by eapply Hlift|done|by left].
  - destruct (h !! a) as [na|] eqn:Ha;
      [|by unfold __pow__ in Hop; rewrite Ha in Hop].
    rewrite (pow_new _ _ _ _ Ha) in Hop. simplify_eq.
    eexists _, _. split_and!; [done|done|by left|done|by left].
  - destruct (h !! a) as [na|] eqn:Ha;
      [|by unfold relu in Hop; rewrite Ha in Hop].
    rewrite (relu_new _ _ _ Ha) in Hop. simplify_eq.
    eexists _, _. split_and!; [done|done|by left|done|by left].
  - destruct (h !! a) as [na|] eqn:Ha;
      [|by unfold tanh in Hop; rewrite Ha in Hop].
    rewrite (tanh_new _ _ _ _ Ha) in Hop. simplify_eq.
    eexists _, _. split_and!; [done|done|by left|done|by left].
Qed.

End Allocation.

(** X9: a call of any of the six operators on a well-formed store
    only appends to the store: the result is the last object, it has
    gradient 0 and holds [self] among its parents, every object that
    existed before the call is unchanged in all its attributes, and the
    store is well formed again (parents older than the object, each
    closure on the object it was made for), so that calls can be
    chained and [backward] run on the result. *)
Theorem operators_only_append {num} `{PyNum num}
    (h : heap num) (a : ref) (other : operand num) (k : num)
    (np_tanh : num → num) (h' : heap num) (out : ref) :
  wf_heap h →
  __add__ a other h = Some (h', out) ∨ __sub__ a other h = Some (h', out) ∨
  __mul__ a other h = Some (h', out) ∨ __pow__ a k h = Some (h', out) ∨
  relu a h = Some (h', out) ∨ tanh np_tanh a h = Some (h', out) →
  wf_heap h' ∧
  length h < length h' ≤ length h + 2 ∧
  S out = length h' ∧
  (∃ n, h' !! out = Some n ∧ grad n = py_0 ∧ a ∈ _prev n) ∧
  (∀ i n, h !! i = Some n → h' !! i = Some n) ∧
  ∃ h2, backward out h' = Some h2.
Proof.
  intros Hwf Hop.
  pose proof (operators_wf h a other k np_tanh h' out Hwf Hop) as Hwf'.
  destruct (operators_result h a other k np_tanh h' out Hop)
    as (h1 & n & -> & -> & Hh1 & Hg & Ha).
  assert (length h ≤ length h1 ≤ length h + 1 ∧
          ∀ i m, h !! i = Some m → h1 !! i = Some m) as [Hlen Hpre].
  { destruct Hh1 as [->|[x ->]]; [split; [lia|done]|].
    rewrite length_app. simpl. split; [lia|].
    intros i m Hi. by apply lookup_app_l_Some. }
  rewrite length_app. simpl. split_and!; [done|lia|lia|lia| | |].
  - exists n. split_and!; [by apply list_lookup_middle|done..].
  - intros i m Hi. by apply lookup_app_l_Some, Hpre.
  - destruct (backward_steps (h1 ++ [n]) (length h1) Hwf')
      as (_ & _ & h2 & _ & _ & _ & Hb & _).
    { rewrite length_app. simpl. lia. }
    by exists h2.
Qed.

Lemma operators_only_append_witness :
  wf_heap (fan_out_graph.1 ++ [leaf_of 7%Z;
             mk_variable 3%Z "" 0%Z [3; 4] "-" (sub_backward 3 4 5)]) ∧
  ∃ h2, backward 5 (fan_out_graph.1 ++ [leaf_of 7%Z;
             mk_variable 3%Z "" 0%Z [3; 4] "-" (sub_backward 3 4 5)])
        = Some h2.
Proof.
  destruct (operators_only_append fan_out_graph.1 3 (Raw 7%Z) 0%Z (λ z, z)
              (fan_out_graph.1 ++ [leaf_of 7%Z;
                 mk_variable 3%Z "" 0%Z [3; 4] "-" (sub_backward 3 4 5)]) 5)
    as (Hwf & _ & _ & _ & _ & Hb).
  - apply wf_heapb_correct. vm_compute. reflexivity.
  - right. left. reflexivity.
  - split; [exact Hwf|exact Hb].
Defined.

(** ** Rendering *)

(** [sep.join(xs)] *)
Definition py_join (sep : string) (xs : list string) : string :=
  match xs with
  | [] => ""
  | x :: rest => foldl (λ acc y, acc +:+ sep +:+ y) x rest
  end.

Section Rendering.
Context {num : Type} `{PyNum num}.
Implicit Types (h : heap num) (n : variable num).

(** The local variable [label] of [__str__] and [__repr__]: the labels
    of the parents joined by commas, or ['None'] when [_prev] is
    empty. *)
Definition prev_label (self : ref) (h : heap num) : option string :=
  n ← h !! self;
  match _prev n with
  | [] => Some "None"
  | prev => labels ← mapM (λ p, label <$> h !! p) prev;
            Some (py_join "," labels)
  end.

Definition __str__ (self : ref) (h : heap num) : option string :=
  n ← h !! self;
  lbl ← prev_label self h;
  Some ("V(value=" +:+ py_str (data n) +:+ ", grad=" +:+ py_str (grad n)
        +:+ ", _prev=" +:+ lbl +:+ ")").

Definition __repr__ (self : ref) (h : heap num) : option string :=
  n ← h !! self;
  lbl ← prev_label self h;
  Some ("V(data=" +:+ py_str (data n) +:+ ", grad=" +:+ py_str (grad n)
        +:+ ", _prev=" +:+ lbl +:+ ")").

Lemma grad_only_label h h' p :
  grad_only h h' → label <$> h' !! p = label <$> h !! p.
Proof.
  intros Hg. destruct (h !! p) as [n|] eqn:Hp.
  - by destruct (grad_only_lookup _ _ _ _ Hg Hp) as [g ->].
  - apply lookup_ge_None in Hp. rewrite (grad_only_length _ _ Hg) in Hp.
    apply lookup_ge_None in Hp. by rewrite Hp.
Qed.

Lemma grad_only_prev_label h h' self :
  grad_only h h' → prev_label self h' = prev_label self h.
Proof.
  intros Hg. unfold prev_label. destruct (h !! self) as [n|] eqn:Hn.
  - destruct (grad_only_lookup _ _ _ _ Hg Hn) as [g ->]. simpl.
    assert (mapM (λ p, label <$> h' !! p) (_prev n)
            = mapM (λ p, label <$> h !! p) (_prev n)) as Hm.
    { apply mapM_ext. intros q. by apply grad_only_label. }
    destruct (_prev n) as [|p prev]; [done|]. simpl in Hm. by rewrite Hm.
  - apply lookup_ge_None in Hn. rewrite (grad_only_length _ _ Hg) in Hn.
    apply lookup_ge_None in Hn. by rewrite Hn.
Qed.

(** The parents of an object of a well-formed store all exist, so the
    rendering of the object returns. *)
Lemma prev_label_is_Some h self :
  wf_heap h → self < length h → is_Some (prev_label self h).
Proof.
  intros Hwf Hself. unfold prev_label.
  destruct (lookup_lt_is_Some_2 _ _ Hself) as [n Hn]. rewrite Hn. simpl.
  destruct (mapM (λ q, label <$> h !! q) (_prev n)) as [ls|] eqn:Hm.
  - destruct (_prev n) as [|p prev]; [eauto|].
    simpl in Hm. rewrite Hm. simpl. eauto.
  - apply mapM_None in Hm. apply Exists_exists in Hm as (q & Hq & Hnone).
    assert (q ∈ parents h self) as Hqp by (unfold parents; by rewrite Hn).
    apply (wf_parent_valid _ _ _ Hwf), lookup_lt_is_Some in Hqp as [m Hm'].
    by rewrite Hm' in Hnone.
Qed.

End Rendering.

(** X10: on a well-formed store [__str__] and [__repr__] of an object
    return, and give the same text except for the name of the first
    field, [value] or [data]; an object without parents is shown with
    [_prev=None]; and the text depends on the gradients in the store
    only through the gradient of the object itself: a backward pass or
    a [zero_grad] that leaves that gradient as it was leaves the text
    as it was. *)
Theorem rendering_of_objects {num} `{PyNum num}
    (h : heap num) (self : ref) :
  wf_heap h → self < length h →
  (∃ n tail,
     h !! self = Some n ∧
     __str__ self h = Some ("V(value=" +:+ tail) ∧
     __repr__ self h = Some ("V(data=" +:+ tail) ∧
     (_prev n = [] →
      tail = py_str (data n) +:+ ", grad=" +:+ py_str (grad n)
             +:+ ", _prev=None)")) ∧
  (∀ h', grad_only h h' → get_grad h' self = get_grad h self →
         __str__ self h' = __str__ self h ∧
         __repr__ self h' = __repr__ self h).
Proof.
  intros Hwf Hself.
  destruct (lookup_lt_is_Some_2 _ _ Hself) as [n Hn].
  destruct (prev_label_is_Some h self Hwf Hself) as [lbl Hlbl].
  split.
  - exists n, (py_str (data n) +:+ ", grad=" +:+ py_str (grad n)
               +:+ ", _prev=" +:+ lbl +:+ ")").
    unfold __str__, __repr__. rewrite Hn, Hlbl. simpl.
    split_and!; [done..|].
    intros Hprev. unfold prev_label in Hlbl. rewrite Hn in Hlbl.
    simpl in Hlbl. rewrite Hprev in Hlbl. by simplify_eq.
  - intros h' Hg Hgrad. unfold __str__, __repr__.
    rewrite (grad_only_prev_label _ _ _ Hg).
    destruct (grad_only_lookup _ _ _ _ Hg Hn) as [g Hn'].
    unfold get_grad in Hgrad. rewrite Hn, Hn' in Hgrad. simpl in Hgrad.
    injection Hgrad as ->. by rewrite Hn, Hn'.
Qed.

Lemma rendering_of_objects_witness :
  ∃ n tail,
    diamond.1 !! 0 = Some n ∧
    __str__ 0 diamond.1 = Some ("V(value=" +:+ tail) ∧
    __repr__ 0 diamond.1 = Some ("V(data=" +:+ tail) ∧
    (_prev n = [] →
     tail = py_str (data n) +:+ ", grad=" +:+ py_str (grad n)
            +:+ ", _prev=None)").
Proof.
  refine (proj1 (rendering_of_objects diamond.1 0 _ _)).
  - apply wf_heapb_correct. vm_compute. reflexivity.
  - vm_compute. lia.
Defined.

(** X11: the scalar operand of a binary operator is visible in the
    rendering of the result: for [+], [-] or [*] applied to an object
    [a] and a raw number [x], [__str__] of the result shows the value
    of the result, the gradient 0, and [_prev=] followed by the label
    of [a], a comma and [f'{x}'], the label that [lift] gave to the
    leaf. *)
Theorem rendering_shows_raw_operand {num} `{PyNum num}
    (op : ref → operand num → heap num → option (heap num * ref))
    (h : heap num) (a : ref) (na : variable num) (x : num) :
  op ∈ [__add__; __sub__; __mul__] →
  h !! a = Some na →
  ∃ h' out n,
    op a (Raw x) h = Some (h', out) ∧ h' !! out = Some n ∧
    __str__ out h'
    = Some ("V(value=" +:+ py_str (data n) +:+ ", grad=" +:+ py_str py_0
            +:+ ", _prev=" +:+ (label na +:+ "," +:+ py_str x) +:+ ")").
Proof.
  intros Hop Ha.
  assert ((h ++ [leaf_of x]) !! a = Some na) as Ha'
    by (by apply lookup_app_l_Some).
  assert ((h ++ [leaf_of x]) !! length h = Some (leaf_of x)) as Hl
    by (by apply list_lookup_middle).
  assert (∀ n, _prev n = [a; length h] → grad n = py_0 →
            ((h ++ [leaf_of x]) ++ [n]) !! length (h ++ [leaf_of x]) = Some n ∧
            __str__ (length (h ++ [leaf_of x])) ((h ++ [leaf_of x]) ++ [n])
            = Some ("V(value=" +:+ py_str (data n) +:+ ", grad="
                    +:+ py_str py_0 +:+ ", _prev="
                    +:+ (label na +:+ "," +:+ py_str x) +:+ ")")) as Hstr.
  { intros n Hprev Hgrad.
    assert (((h ++ [leaf_of x]) ++ [n]) !! length (h ++ [leaf_of x]) = Some n)
      as Hn by (by apply list_lookup_middle).
    split; [done|]. unfold __str__, prev_label. rewrite Hn. simpl.
    rewrite Hprev. simpl.
    rewrite (lookup_app_l_Some _ _ _ _ Ha'), (lookup_app_l_Some _ _ _ _ Hl).
    simpl. by rewrite Hgrad. }
  rewrite !elem_of_cons in Hop.
  destruct Hop as [->|[->|[->|Hop]]]; [| | |by apply elem_of_nil in Hop].
  - eexists _, _, _. split;
      [by apply (add_lifted h a (Raw x) _ _ na (leaf_of x) (lift_Raw h x))|].
    by apply Hstr.
  - eexists _, _, _. split;
      [by apply (sub_lifted h a (Raw x) _ _ na (leaf_of x) (lift_Raw h x))|].
    by apply Hstr.
  - eexists _, _, _. split;
      [by apply (mul_lifted h a (Raw x) _ _ na (leaf_of x) (lift_Raw h x))|].
    by apply Hstr.
Qed.

Lemma rendering_shows_raw_operand_witness :
  ∃ h' out n,
    __mul__ 0 (Raw 7%Z) (Variable_init 3%Z "a" 0%Z "" [] []).1
    = Some (h', out) ∧
    h' !! out = Some n ∧
    __str__ out h' = Some "V(value=21, grad=0, _prev=a,7)".
Proof.
  destruct (rendering_shows_raw_operand __mul__
              (Variable_init 3%Z "a" 0%Z "" [] []).1 0
              (mk_variable 3%Z "a" 0%Z [] "" lambda_None) 7%Z)
    as (h' & out & n & Hop & Hn & Hs).
  - right. right. left.
  - reflexivity.
  - exists h', out, n. split_and!; [exact Hop|exact Hn|].
    rewrite Hs. vm_compute in Hop. injection Hop as <- <-.
    vm_compute in Hn. injection Hn as <-. reflexivity.
Defined.
